(** * Expression parser of the compiler (src/expression.c)

    A shallow embedding of [match_parens], [parse_value], the operator
    table, [compile_operator], the operator parsers, [parse_sub_expression]
    and [parse_expression], followed by the properties of the
    specification that concern them. *)

From Stdlib Require Import ZArith List String Bool Lia.
Import ListNotations.

Local Open Scope string_scope.
Local Open Scope Z_scope.

(** ** [size_t] arithmetic

    Indices are [size_t]: unsigned 64-bit integers, carried here as [Z] with
    the wrap-around of [+] and [-] written out. *)

Module SizeT.

Definition modulus : Z := 2 ^ 64.

Definition max : Z := modulus - 1.

Definition wrap (z : Z) : Z := z mod modulus.

Definition add (a b : Z) : Z := wrap (a + b).

Definition sub (a b : Z) : Z := wrap (a - b).

End SizeT.

(** ** Outcomes of the C functions

    A call either returns, or ends in [raise_compiler_error] (which never
    returns), or performs a read the C standard leaves undefined, or
    declares an array whose bound is not positive, or (in the model only)
    exhausts the fuel that bounds its loops and recursion. *)

(** Location handle of a statement ([line *]); only passed on to the error
    sink. *)
Definition line : Type := Z.

Inductive undefined_read : Type :=
| token_read (index : Z)
| match_read (index : Z)
| null_dereference
| array_bound (bound : Z).

Inductive outcome (A : Type) : Type :=
| Return (a : A)
| compiler_error (message : string) (location : line)
| undefined (read : undefined_read)
| out_of_fuel.

Arguments Return {A} a.
Arguments compiler_error {A} message location.
Arguments undefined {A} read.
Arguments out_of_fuel {A}.

Definition bind {A B : Type} (c : outcome A) (k : A -> outcome B) : outcome B :=
  match c with
  | Return a => k a
  | compiler_error m l => compiler_error m l
  | undefined r => undefined r
  | out_of_fuel => out_of_fuel
  end.

Notation "x <- c ;; k" := (bind c (fun x => k))
  (at level 61, c at next level, right associativity).

(** Modelled from the spec: util.h only declares [raise_compiler_error]; the
    sink takes a message and a location and never returns normally. *)
Definition raise_compiler_error {A : Type} (message : string) (l : line) : outcome A :=
  compiler_error message l.

(** ** Tokens

    Modelled from the spec: vec.h is absent. The token source is an ordered,
    0-indexed sequence of token texts; a read outside it is undefined in C
    and is kept as the outcome [undefined (token_read i)]. *)
Definition vec_len {A : Type} (v : list A) : Z := Z.of_nat (List.length v).

Definition token_at (tokenv : list string) (i : Z) : option string :=
  if (0 <=? i) && (i <? vec_len tokenv) then nth_error tokenv (Z.to_nat i)
  else None.

Definition vec_get (tokenv : list string) (i : Z) : outcome string :=
  match token_at tokenv i with
  | Some t => Return t
  | None => undefined (token_read i)
  end.

(** [strcmp(a, b) == 0] *)
Definition streq (a b : string) : bool := String.eqb a b.

Definition ASSIGNMENT : string := "=".
Definition ADD : string := "+".
Definition SUB : string := "-".
Definition MUL : string := "*".
Definition DIV : string := "/".
Definition MOD : string := "%".
Definition PAREN_OPEN : string := "(".
Definition PAREN_CLOSE : string := ")".

Definition COMMON_PRECEDENCE_GROUPS : Z := 3.

(** ** The [size_t] arrays [matches] / [paren_matches] *)

Definition array_get (a : list Z) (i : Z) : outcome Z :=
  match (if (0 <=? i) && (i <? vec_len a) then nth_error a (Z.to_nat i)
         else None) with
  | Some v => Return v
  | None => undefined (match_read i)
  end.

Fixpoint list_set (a : list Z) (n : nat) (v : Z) : list Z :=
  match a, n with
  | [], _ => []
  | _ :: rest, O => v :: rest
  | x :: rest, S n' => x :: list_set rest n' v
  end.

(** [matches[i] = v]; [match_parens] only writes at [i - start] with
    [start <= i < end], inside the array of [end - start] cells. *)
Definition array_set (a : list Z) (i : Z) (v : Z) : list Z :=
  if 0 <=? i then list_set a (Z.to_nat i) v else a.

(** ** Parenthesis matcher: [match_parens]

    [open_parens] is a [vec] used as a stack ([vec_push_val] /
    [vec_pop_val]); the head of the list is its top. The loop variable [i]
    runs from [start] while [i < end]; the token compared is
    [vec_get(tokenv, start)]. *)

Fixpoint match_parens_loop (iterations : nat) (tokenv : list string)
  (start i : Z) (open_parens : list Z) (matches : list Z)
  : outcome (bool * list Z) :=
  match iterations with
  | O => Return (vec_len open_parens =? 0, matches)
  | S iterations' =>
      token <- vec_get tokenv start ;;
      if streq token PAREN_OPEN then
        match_parens_loop iterations' tokenv start (i + 1) (i :: open_parens) matches
      else if streq token PAREN_CLOSE then
        match open_parens with
        | [] => Return (false, matches)
        | top :: rest =>
            match_parens_loop iterations' tokenv start (i + 1) rest
              (array_set matches (i - start) top)
        end
      else
        match_parens_loop iterations' tokenv start (i + 1) open_parens matches
  end.

Definition match_parens (tokenv : list string) (start end_ : Z) (matches : list Z)
  : outcome (bool * list Z) :=
  match_parens_loop (Z.to_nat (end_ - start)) tokenv start start [] matches.

(** The matcher as section 4.1 of the specification words it: the token
    compared is the one at the current scan index [i]. *)
Fixpoint match_parens_spec_loop (iterations : nat) (tokenv : list string)
  (start i : Z) (open_parens : list Z) (matches : list Z)
  : outcome (bool * list Z) :=
  match iterations with
  | O => Return (vec_len open_parens =? 0, matches)
  | S iterations' =>
      token <- vec_get tokenv i ;;
      if streq token PAREN_OPEN then
        match_parens_spec_loop iterations' tokenv start (i + 1) (i :: open_parens) matches
      else if streq token PAREN_CLOSE then
        match open_parens with
        | [] => Return (false, matches)
        | top :: rest =>
            match_parens_spec_loop iterations' tokenv start (i + 1) rest
              (array_set matches (i - start) top)
        end
      else
        match_parens_spec_loop iterations' tokenv start (i + 1) open_parens matches
  end.

Definition match_parens_spec (tokenv : list string) (start end_ : Z) (matches : list Z)
  : outcome (bool * list Z) :=
  match_parens_spec_loop (Z.to_nat (end_ - start)) tokenv start start [] matches.

(** ** AST nodes

    Modelled from the spec: ast_node.h, types.h and assembly_generator.h are
    absent. A value of [ast_node] is an [ast_node *]: [NULL], a leaf (literal
    or variable, with its type and text) or a binary operation (result type,
    two children, emission handler). *)

Record type : Type := { name : string }.

Inductive assembly_generator : Type :=
| assignment_assembly
| add_assembly
| sub_assembly
| mul_assembly
| div_assembly
| mod_assembly.

Inductive ast_node : Type :=
| NULL
| literal_node (expr_type : type) (text : string)
| var_node (expr_type : type) (var_name : string)
| binary_operation (expr_type : type) (left right : ast_node)
    (generator : assembly_generator).

Definition literal_node_new (t : type) (token : string) : ast_node :=
  literal_node t token.

Definition var_node_new (t : type) (token : string) : ast_node :=
  var_node t token.

Definition binary_operation_new (t : type) (left right : ast_node)
  (generator : assembly_generator) : ast_node :=
  binary_operation t left right generator.

Definition is_null (n : ast_node) : bool :=
  match n with
  | NULL => true
  | _ => false
  end.

(** [n->expr_type] *)
Definition expr_type_of (n : ast_node) : outcome type :=
  match n with
  | NULL => undefined null_dereference
  | literal_node t _ => Return t
  | var_node t _ => Return t
  | binary_operation t _ _ _ => Return t
  end.

(** ** The operator table

    [parse_func] is a function pointer; the six parsers it can point to are
    named by [parser_name] and called through [call_parse_func] below. *)

Inductive parser_name : Type :=
| assignment_parser_ptr
| mul_parser_ptr
| div_parser_ptr
| mod_parser_ptr
| add_parser_ptr
| sub_parser_ptr.

Record operator : Type := {
  operator_token : string;
  parse_func : parser_name
}.

(** Each row ends, in C, with an empty entry whose [operator_token] is
    [NULL]; the end of the list plays that part. *)
Definition operators : list (list operator) :=
  [ [ {| operator_token := "="; parse_func := assignment_parser_ptr |} ];
    [ {| operator_token := "+"; parse_func := add_parser_ptr |};
      {| operator_token := "-"; parse_func := sub_parser_ptr |} ];
    [ {| operator_token := "*"; parse_func := mul_parser_ptr |};
      {| operator_token := "/"; parse_func := div_parser_ptr |};
      {| operator_token := "%"; parse_func := mod_parser_ptr |} ] ].

(** [operators[op_group_index]]. The table has [COMMON_PRECEDENCE_GROUPS]
    rows, and the loop of [parse_sub_expression] reads it only under the
    guard [op_group_index < COMMON_PRECEDENCE_GROUPS] with an index that
    starts at 0 and is a [size_t]. Outside these rows C reads past the
    table; the empty row that [nth] gives there stands for no C behaviour,
    and statements about [compile_operator] keep the index inside the
    table. *)
Definition operator_group (op_group_index : Z) : list operator :=
  nth (Z.to_nat op_group_index) operators [].

(** ** The parser *)

Section Parser.

(** Collaborators that are not part of this file: the namespace with its
    lookup, and literal-type inference. [var_lookup] returns an
    [ast_node *], [NULL] when the name is not declared. *)
Context {namespace : Type}.
Variable get_literal_type : string -> option type.
Variable var_lookup : namespace -> string -> ast_node.

Record expression_parser : Type := {
  tokenv : list string;
  curr_line : line;
  token : string;
  token_index : Z;
  expr_start : Z;
  start : Z;
  end_ : Z;
  op_group_index : Z;
  paren_matches : list Z;
  ns : namespace
}.

Definition set_token (p : expression_parser) (v : string) : expression_parser :=
  {| tokenv := tokenv p; curr_line := curr_line p; token := v;
     token_index := token_index p; expr_start := expr_start p;
     start := start p; end_ := end_ p; op_group_index := op_group_index p;
     paren_matches := paren_matches p; ns := ns p |}.

Definition set_token_index (p : expression_parser) (v : Z) : expression_parser :=
  {| tokenv := tokenv p; curr_line := curr_line p; token := token p;
     token_index := v; expr_start := expr_start p;
     start := start p; end_ := end_ p; op_group_index := op_group_index p;
     paren_matches := paren_matches p; ns := ns p |}.

Definition set_start (p : expression_parser) (v : Z) : expression_parser :=
  {| tokenv := tokenv p; curr_line := curr_line p; token := token p;
     token_index := token_index p; expr_start := expr_start p;
     start := v; end_ := end_ p; op_group_index := op_group_index p;
     paren_matches := paren_matches p; ns := ns p |}.

Definition set_end (p : expression_parser) (v : Z) : expression_parser :=
  {| tokenv := tokenv p; curr_line := curr_line p; token := token p;
     token_index := token_index p; expr_start := expr_start p;
     start := start p; end_ := v; op_group_index := op_group_index p;
     paren_matches := paren_matches p; ns := ns p |}.

Definition set_op_group_index (p : expression_parser) (v : Z) : expression_parser :=
  {| tokenv := tokenv p; curr_line := curr_line p; token := token p;
     token_index := token_index p; expr_start := expr_start p;
     start := start p; end_ := end_ p; op_group_index := v;
     paren_matches := paren_matches p; ns := ns p |}.

(** [init_expression_parser] writes seven of the ten fields; [token],
    [token_index] and [paren_matches] keep whatever the struct held. *)
Definition init_expression_parser (parser : expression_parser)
  (tokens : list string) (l : line) (start0 end0 : Z) (names : namespace)
  : expression_parser :=
  {| tokenv := tokens; curr_line := l; token := token parser;
     token_index := token_index parser; expr_start := start0;
     start := start0; end_ := end0; op_group_index := 0;
     paren_matches := paren_matches parser; ns := names |}.

(** The recursive calls to [parse_sub_expression] go through [rec], which
    [parse_sub_expression] below instantiates with itself on less fuel. *)
Section Body.

Variable rec : expression_parser -> outcome ast_node.

Definition binary_operation_parser (parser : expression_parser)
  (generator : assembly_generator) : outcome ast_node :=
  let left_parser := set_end parser (token_index parser) in
  left <- rec left_parser ;;
  let right_parser := set_start parser (SizeT.add (token_index parser) 1) in
  right <- rec right_parser ;;
  t <- expr_type_of right ;;
  Return (binary_operation_new t left right generator).

Definition mul_parser (parser : expression_parser) : outcome ast_node :=
  binary_operation_parser parser mul_assembly.

Definition div_parser (parser : expression_parser) : outcome ast_node :=
  binary_operation_parser parser div_assembly.

Definition mod_parser (parser : expression_parser) : outcome ast_node :=
  binary_operation_parser parser mod_assembly.

Definition add_parser (parser : expression_parser) : outcome ast_node :=
  binary_operation_parser parser add_assembly.

Definition sub_parser (parser : expression_parser) : outcome ast_node :=
  binary_operation_parser parser sub_assembly.

(** The [puts] at the head of the C function writes to standard output and
    is left out. *)
Definition assignment_parser (parser : expression_parser) : outcome ast_node :=
  if negb (SizeT.sub (token_index parser) (expr_start parser) =? 1) then
    raise_compiler_error "Invalid Assignment" (curr_line parser)
  else
    name_token <- vec_get (tokenv parser) (SizeT.sub (token_index parser) 1) ;;
    let var_node := var_lookup (ns parser) name_token in
    let val_parser := set_start parser (SizeT.add (token_index parser) 1) in
    value <- rec val_parser ;;
    t <- expr_type_of value ;;
    Return (binary_operation_new t var_node value assignment_assembly).

Definition call_parse_func (f : parser_name) (parser : expression_parser)
  : outcome ast_node :=
  match f with
  | assignment_parser_ptr => assignment_parser parser
  | mul_parser_ptr => mul_parser parser
  | div_parser_ptr => div_parser parser
  | mod_parser_ptr => mod_parser parser
  | add_parser_ptr => add_parser parser
  | sub_parser_ptr => sub_parser parser
  end.

Fixpoint compile_operator_loop (ops : list operator) (parser : expression_parser)
  : outcome ast_node :=
  match ops with
  | [] => Return NULL
  | op :: ops' =>
      if streq (token parser) (operator_token op) then
        call_parse_func (parse_func op) parser
      else compile_operator_loop ops' parser
  end.

Definition compile_operator (parser : expression_parser) : outcome ast_node :=
  compile_operator_loop (operator_group (op_group_index parser)) parser.

Definition parse_parenthetical_expression (parser : expression_parser)
  : outcome ast_node :=
  let parser := set_start parser (SizeT.add (start parser) 1) in
  let parser := set_end parser (SizeT.sub (end_ parser) 1) in
  rec parser.

Definition parse_value (parser : expression_parser) : outcome ast_node :=
  tok <- vec_get (tokenv parser) (start parser) ;;
  match get_literal_type tok with
  | Some literal_type => Return (literal_node_new literal_type tok)
  | None =>
      let var := var_lookup (ns parser) tok in
      if negb (is_null var) then
        t <- expr_type_of var ;;
        Return (var_node_new t tok)
      else
        raise_compiler_error "Invalid Value" (curr_line parser)
  end.

(** How the [while] loop of [parse_sub_expression] ends: with a [return]
    of the enclosing function, or by its condition becoming false. *)
Inductive scan_end : Type :=
| returned (operator_node : ast_node)
| fell_through (parser : expression_parser).

(** [while (parser->token_index >= parser->start) { ... }]; [steps] bounds
    the number of iterations. *)
Fixpoint scan_tokens (steps : nat) (parser : expression_parser) : outcome scan_end :=
  if start parser <=? token_index parser then
    match steps with
    | O => out_of_fuel
    | S steps' =>
        tok <- vec_get (tokenv parser) (token_index parser) ;;
        let parser := set_token parser tok in
        if streq (token parser) PAREN_CLOSE then
          m <- array_get (paren_matches parser)
                 (SizeT.sub (token_index parser) (expr_start parser)) ;;
          let parser := set_token_index parser m in
          scan_tokens steps' (set_token_index parser (SizeT.sub (token_index parser) 1))
        else
          operator_node <- compile_operator parser ;;
          if negb (is_null operator_node) then Return (returned operator_node)
          else
            scan_tokens steps' (set_token_index parser (SizeT.sub (token_index parser) 1))
    end
  else Return (fell_through parser).

(** [for (; parser->op_group_index < COMMON_PRECEDENCE_GROUPS;
    parser->op_group_index++) { ... }]; the index only grows, so the body
    runs at most [COMMON_PRECEDENCE_GROUPS] times. *)
Fixpoint scan_groups (steps : nat) (rounds : nat) (parser : expression_parser)
  : outcome ast_node :=
  if op_group_index parser <? COMMON_PRECEDENCE_GROUPS then
    match rounds with
    | O => out_of_fuel
    | S rounds' =>
        let parser := set_token_index parser (SizeT.sub (end_ parser) 1) in
        r <- scan_tokens steps parser ;;
        match r with
        | returned operator_node => Return operator_node
        | fell_through parser =>
            scan_groups steps rounds'
              (set_op_group_index parser (SizeT.add (op_group_index parser) 1))
        end
    end
  else Return NULL.

Definition parse_sub_expression_body (steps : nat) (parser : expression_parser)
  : outcome ast_node :=
  if SizeT.add (start parser) 1 =? end_ parser then parse_value parser
  else
    let tokens := tokenv parser in
    first <- vec_get tokens (start parser) ;;
    wrapped <- (if streq first PAREN_OPEN then
                  after <- vec_get tokens (end_ parser) ;;
                  Return (streq after PAREN_CLOSE)
                else Return false) ;;
    if (wrapped : bool) then parse_parenthetical_expression parser
    else scan_groups steps (Z.to_nat COMMON_PRECEDENCE_GROUPS) parser.

End Body.

Fixpoint parse_sub_expression (fuel : nat) (parser : expression_parser)
  : outcome ast_node :=
  match fuel with
  | O => out_of_fuel
  | S fuel' => parse_sub_expression_body (parse_sub_expression fuel') fuel' parser
  end.

(** [parser] is the local struct before [init_expression_parser] fills it
    and [matches] the local array [paren_matches] before [match_parens]
    writes to it: neither is initialised in C. The array filled by
    [match_parens] is never stored in the struct.

    The array is declared with the bound [end - start], computed in
    [size_t]: with [end <= start] the bound is 0 or wraps around to a size
    no object has, and the declaration is undefined before anything else
    runs. *)
Definition parse_expression (fuel : nat) (parser : expression_parser)
  (matches : list Z) (tokens : list string) (l : line) (start0 end0 : Z)
  (names : namespace) : outcome ast_node :=
  if end0 <=? start0 then undefined (array_bound (SizeT.sub end0 start0))
  else
    r <- match_parens tokens start0 end0 matches ;;
    let valid_parens := fst r in
    if negb valid_parens then raise_compiler_error "Mismatched Parentheses" l
    else
      let parser := init_expression_parser parser tokens l start0 end0 names in
      parse_sub_expression fuel parser.

End Parser.

(** ** A concrete environment, for evaluating the parser *)

Module Demo.

Definition int_type : type := {| name := "int" |}.

Definition is_digit (c : Ascii.ascii) : bool :=
  let n := Z.of_nat (Ascii.nat_of_ascii c) in (48 <=? n) && (n <=? 57).

(** A token that starts with a digit is an [int] literal. *)
Definition get_literal_type (t : string) : option type :=
  match t with
  | String c _ => if is_digit c then Some int_type else None
  | EmptyString => None
  end.

Definition namespace : Type := list (string * type).

Fixpoint var_lookup (names : namespace) (t : string) : ast_node :=
  match names with
  | [] => NULL
  | (n, ty) :: rest => if String.eqb n t then var_node ty n else var_lookup rest t
  end.

Definition names : namespace :=
  [ ("a", int_type); ("b", int_type); ("c", int_type); ("x", int_type); ("y", int_type) ].

(** Contents of the uninitialised parser struct: a table that cannot be
    read at any index. *)
Definition stack_parser : @expression_parser namespace :=
  {| tokenv := []; curr_line := 0; token := ""; token_index := 0;
     expr_start := 0; start := 0; end_ := 0; op_group_index := 0;
     paren_matches := []; ns := [] |}.

(** An uninitialised parser struct whose [paren_matches] happens to point
    to [table]. *)
Definition stack_with_table (table : list Z) : @expression_parser namespace :=
  {| tokenv := []; curr_line := 0; token := ""; token_index := 0;
     expr_start := 0; start := 0; end_ := 0; op_group_index := 0;
     paren_matches := table; ns := [] |}.

Definition parse_with_table (fuel : nat) (table : list Z) (tokens : list string)
  (start0 end0 : Z) : outcome ast_node :=
  parse_expression get_literal_type var_lookup fuel (stack_with_table table) []
    tokens 7 start0 end0 names.

Definition parse (fuel : nat) (matches : list Z) (tokens : list string)
  (start0 end0 : Z) : outcome ast_node :=
  parse_expression get_literal_type var_lookup fuel stack_parser matches tokens
    7 start0 end0 names.

(** A parser state as [init_expression_parser] leaves it, except that
    [paren_matches] points to the given table. *)
Definition parser_with_table (table : list Z) (tokens : list string)
  (start0 end0 : Z) : @expression_parser namespace :=
  {| tokenv := tokens; curr_line := 7; token := ""; token_index := 0;
     expr_start := start0; start := start0; end_ := end0; op_group_index := 0;
     paren_matches := table; ns := names |}.

Definition parse_sub (fuel : nat) (p : @expression_parser namespace)
  : outcome ast_node :=
  parse_sub_expression get_literal_type var_lookup fuel p.

End Demo.

(** ** Vocabulary for the statements *)

(** The parser that row [g] of the table binds to token [t], if any. *)
Definition tier_operator (g : Z) (t : string) : option parser_name :=
  option_map parse_func
    (find (fun op => streq t (operator_token op)) (operator_group g)).

(** The emission handler of the five parsers that go through
    [binary_operation_parser]. *)
Definition binary_generator (f : parser_name) : option assembly_generator :=
  match f with
  | assignment_parser_ptr => None
  | mul_parser_ptr => Some mul_assembly
  | div_parser_ptr => Some div_assembly
  | mod_parser_ptr => Some mod_assembly
  | add_parser_ptr => Some add_assembly
  | sub_parser_ptr => Some sub_assembly
  end.

(** In tier [g] the scan steps over [t] one position to the left: [t] is
    neither a closing parenthesis nor an operator of the tier. *)
Definition scan_passes (g : Z) (t : string) : bool :=
  negb (streq t PAREN_CLOSE) &&
  match tier_operator g t with
  | Some _ => false
  | None => true
  end.

(** An operand token: not a parenthesis and not an operator of any tier. *)
Definition is_operand (t : string) : bool :=
  negb (existsb (streq t)
          [PAREN_OPEN; PAREN_CLOSE; ASSIGNMENT; ADD; SUB; MUL; DIV; MOD]).

Definition range_tokens (tokens : list string) (lo hi : Z) : list string :=
  firstn (Z.to_nat (hi - lo)) (skipn (Z.to_nat lo) tokens).

(** No token of [lo, hi) stops or diverts the scan of tier [g]. *)
Definition no_split (g : Z) (tokens : list string) (lo hi : Z) : bool :=
  forallb (scan_passes g) (range_tokens tokens lo hi).

(** [lo, hi) lies inside the token vector, whose length a [size_t] holds. *)
Definition in_tokens (tokens : list string) (lo hi : Z) : bool :=
  (0 <=? lo) && (lo <=? hi) && (hi <=? vec_len tokens) &&
  (vec_len tokens <? SizeT.modulus).

(** The tiers [g0 <= t < g] all scan across [lo, hi) without a split. *)
Definition tiers_exhausted (g0 g : Z) (tokens : list string) (lo hi : Z) : bool :=
  forallb (fun t => no_split t tokens lo hi)
    (map Z.of_nat (seq (Z.to_nat g0) (Z.to_nat (g - g0)))).

(** The test that sends [parse_sub_expression] to
    [parse_parenthetical_expression] reads the first token and, when that is
    [(], the token at index [hi]. [strip_test_holds]: both reads succeed and
    the test is true. [strip_test_fails]: the reads it makes succeed and the
    test is false. *)
Definition strip_test_holds (tokens : list string) (lo hi : Z) : bool :=
  match token_at tokens lo, token_at tokens hi with
  | Some first, Some after => streq first PAREN_OPEN && streq after PAREN_CLOSE
  | _, _ => false
  end.

Definition strip_test_fails (tokens : list string) (lo hi : Z) : bool :=
  match token_at tokens lo with
  | Some first =>
      if streq first PAREN_OPEN then
        match token_at tokens hi with
        | Some after => negb (streq after PAREN_CLOSE)
        | None => false
        end
      else true
  | None => false
  end.

Section Vocabulary.

Context {namespace : Type}.

(** The parser state while the scan looks at token [t] at index [i]. *)
Definition at_index (p : @expression_parser namespace) (i : Z) (t : string)
  : expression_parser :=
  set_token (set_token_index p i) t.

(** [binary_operation_parser] as section 4.3 (step 4) of the specification
    words it: both operand parsers start again from the lowest tier. *)
Definition binary_operation_parser_restarting
  (rec : @expression_parser namespace -> outcome ast_node)
  (parser : expression_parser) (generator : assembly_generator)
  : outcome ast_node :=
  let left_parser := set_op_group_index (set_end parser (token_index parser)) 0 in
  left <- rec left_parser ;;
  let right_parser :=
    set_op_group_index (set_start parser (SizeT.add (token_index parser) 1)) 0 in
  right <- rec right_parser ;;
  t <- expr_type_of right ;;
  Return (binary_operation_new t left right generator).

(** What [parse_value] makes of the token [tok], in namespace [names] and
    on line [l]. *)
Definition resolve_token (get_literal_type : string -> option type)
  (var_lookup : namespace -> string -> ast_node)
  (names : namespace) (l : line) (tok : string) : outcome ast_node :=
  match get_literal_type tok with
  | Some literal_type => Return (literal_node literal_type tok)
  | None =>
      match var_lookup names tok with
      | NULL => compiler_error "Invalid Value" l
      | literal_node declared _
      | var_node declared _
      | binary_operation declared _ _ _ => Return (var_node declared tok)
      end
  end.

(** [r'] is [r] with possibly more fuel. *)
Definition refines {A : Type} (r r' : outcome A) : Prop :=
  r = out_of_fuel \/ r = r'.

End Vocabulary.

(** ** Predicates on results *)

(** [n] has a type, and it is [t]. *)
Definition has_type (n : ast_node) (t : type) : bool :=
  match n with
  | NULL => false
  | literal_node t' _ | var_node t' _ | binary_operation t' _ _ _ =>
      String.eqb (name t') (name t)
  end.

(** Every operation node of the tree has a right operand that is not
    [NULL], and carries the type of that operand. *)
Fixpoint typed_by_right (n : ast_node) : bool :=
  match n with
  | binary_operation t l r _ => has_type r t && typed_by_right l && typed_by_right r
  | _ => true
  end.

(** The messages [parse_sub_expression] passes to the error sink. *)
Definition is_value_or_assignment_error (message : string) : bool :=
  String.eqb message "Invalid Value" || String.eqb message "Invalid Assignment".

(** A returned value satisfies [P]; a raised error has one of the two
    messages above and the location [l]. *)
Definition outcome_within {A : Type} (P : A -> Prop) (l : line) (r : outcome A)
  : Prop :=
  match r with
  | Return a => P a
  | compiler_error m l' => is_value_or_assignment_error m = true /\ l' = l
  | undefined _ => True
  | out_of_fuel => True
  end.

(** A returned value satisfies [P]. *)
Definition returns_only {A : Type} (P : A -> Prop) (r : outcome A) : Prop :=
  match r with
  | Return a => P a
  | _ => True
  end.

(** The row of [operators] whose parsers pass the emission handler [gen] to
    [binary_operation_new]. *)
Definition generator_tier (gen : assembly_generator) : Z :=
  match gen with
  | assignment_assembly => 0
  | add_assembly | sub_assembly => 1
  | mul_assembly | div_assembly | mod_assembly => 2
  end.

(** [n] is not an operation node of a tier below [g]. *)
Definition root_tier_at_least (g : Z) (n : ast_node) : bool :=
  match n with
  | binary_operation _ _ _ gen => g <=? generator_tier gen
  | _ => true
  end.

(** Neither operand of the root of [n] is an operation node of a tier below
    the root's. *)
Definition operands_not_below (n : ast_node) : bool :=
  match n with
  | binary_operation _ l r gen =>
      root_tier_at_least (generator_tier gen) l &&
      root_tier_at_least (generator_tier gen) r
  | _ => true
  end.

(** What a parser at tier [g] can return. *)
Definition tiers_from (g : Z) (n : ast_node) : Prop :=
  root_tier_at_least g n = true /\ operands_not_below n = true.

(** ** Source files (src/source_code_files.c)

    The functions of this file call the C library. A call is kept in a log,
    in the order the calls are made, with the arguments that matter; what
    the library answers comes from the environment: [fopen] (a function of
    the file name) and the success of [malloc] (a function of the size).
    A stream that [fopen] returned is described by what the later calls on
    it answer. *)

Module SourceCodeFiles.

(** An open stream ([FILE *]): the result of [fseek(file, 0, SEEK_END)],
    the result of [ftell] after it, and the bytes the stream delivers from
    its start after [rewind]. *)
Record FILE : Type := {
  fseek_end_result : Z;
  ftell_result : Z;
  stream : string
}.

Inductive call : Type :=
| fprintf_stderr (text : string)
| fopen_call (file_name : string)
| fseek_end_call (file : FILE)
| ftell_call (file : FILE)
| rewind_call (file : FILE)
| fclose_call (file : FILE)
| malloc_call (size : Z)
| fread_call (file : FILE) (size : Z)
| free_call (buffer : string)
| free_vec_and_elements_call (elements : list string).

(** A computation: its result and the library calls it made. *)
Definition io (A : Type) : Type := A * list call.

Definition ret {A : Type} (a : A) : io A := (a, []).

Definition then_ {A B : Type} (c : io A) (k : A -> io B) : io B :=
  let (a, log1) := c in
  let (b, log2) := k a in
  (b, (log1 ++ log2)%list).

Definition did (c : call) : io unit := (tt, [c]).

Notation "x <~ c ;; k" := (then_ c (fun x => k))
  (at level 61, c at next level, right associativity).
Notation "c ;;; k" := (then_ c (fun _ => k))
  (at level 61, right associativity).

Definition result {A : Type} (c : io A) : A := fst c.

Definition calls {A : Type} (c : io A) : list call := snd c.

Fixpoint string_drop (n : nat) (s : string) : string :=
  match n, s with
  | O, _ => s
  | S n', String _ s' => string_drop n' s'
  | S _, EmptyString => EmptyString
  end.

Fixpoint string_take (n : nat) (s : string) : string :=
  match n, s with
  | O, _ => EmptyString
  | S n', String c s' => String c (string_take n' s')
  | S _, EmptyString => EmptyString
  end.

Definition strlen (s : string) : Z := Z.of_nat (String.length s).

Definition newline : string := String (Ascii.ascii_of_nat 10) EmptyString.

Section Files.

(** The two macros of source_code_files.h, which is not part of this file
    set, and the environment. The pointer [name + len - MIN_FILENAME_LEN + 1]
    is only formed when [len >= MIN_FILENAME_LEN]; it stays inside the
    string when [MIN_FILENAME_LEN >= 1]. *)
Variable MIN_FILENAME_LEN : Z.
Variable FILE_EXT : string.
Variable fopen : string -> option FILE.
Variable malloc_succeeds : Z -> bool.

(** The condition of the first [if] of [open_source_file]. *)
Definition invalid_file_name (file_name : string) : bool :=
  let len := strlen file_name in
  if len <? MIN_FILENAME_LEN then true
  else
    negb (String.eqb
            (string_drop (Z.to_nat (len - MIN_FILENAME_LEN + 1)) file_name)
            FILE_EXT).

(** [NULL] is [None]. *)
Definition open_source_file (file_name : string) : io (option FILE) :=
  if invalid_file_name file_name then
    did (fprintf_stderr ("Invalid file: " ++ file_name ++ newline)) ;;;
    ret None
  else
    did (fopen_call file_name) ;;;
    match fopen file_name with
    | None =>
        did (fprintf_stderr ("File not found: " ++ file_name ++ newline)) ;;;
        ret None
    | Some source_file => ret (Some source_file)
    end.

Definition get_file_size (file : FILE) : io Z :=
  did (fseek_end_call file) ;;;
  if negb (fseek_end_result file =? 0) then ret (-1)
  else
    did (ftell_call file) ;;;
    let offset := ftell_result file in
    did (rewind_call file) ;;;
    ret offset.

(** The buffer returned holds [bytes_read] bytes and the terminating zero;
    it is kept as the string of those bytes. [fread] asked for [n] bytes
    delivers the first [n] bytes of the stream, or all of it if it is
    shorter. *)
Definition read_source_file (file_name : string) : io (option string) :=
  opened <~ open_source_file file_name ;;
  match opened with
  | None => ret None
  | Some file =>
      source_file_size <~ get_file_size file ;;
      if source_file_size <? 0 then
        did (fprintf_stderr
               ("Failed to calculate size of file: " ++ file_name ++ newline)) ;;;
        did (fclose_call file) ;;;
        ret None
      else
        did (malloc_call (source_file_size + 1)) ;;;
        if negb (malloc_succeeds (source_file_size + 1)) then
          did (fprintf_stderr
                 ("Failed to allocate buffer for file: " ++ file_name ++ newline)) ;;;
          did (fclose_call file) ;;;
          ret None
        else
          did (fread_call file source_file_size) ;;;
          let buffer := string_take (Z.to_nat source_file_size) (stream file) in
          let bytes_read := strlen buffer in
          did (fclose_call file) ;;;
          if negb (bytes_read =? source_file_size) then
            did (fprintf_stderr
                   ("Failed to read from file: " ++ file_name ++ newline)) ;;;
            did (free_call buffer) ;;;
            ret None
          else ret (Some buffer)
  end.

(** The loop of [read_source_code] over the [NULL]-terminated array of
    names; [source_code] is the vector built so far ([vec_add] appends). *)
Fixpoint read_source_code_loop (source_files : list string)
  (source_code : list string) : io (option (list string)) :=
  match source_files with
  | [] => ret (Some source_code)
  | source_file :: rest =>
      source_file_content <~ read_source_file source_file ;;
      match source_file_content with
      | None =>
          did (free_vec_and_elements_call source_code) ;;;
          ret None
      | Some content =>
          read_source_code_loop rest (source_code ++ [content])%list
      end
  end.

Definition read_source_code (source_files : list string)
  : io (option (list string)) :=
  read_source_code_loop source_files [].

(** Projections of a log. [streams_opened]: the streams the [fopen] calls
    of the log returned. [buffers_allocated]: the number of [malloc] calls
    of the log that succeeded. *)
Definition streams_opened (log : list call) : list FILE :=
  flat_map (fun c => match c with
                     | fopen_call n =>
                         match fopen n with
                         | Some f => [f]
                         | None => []
                         end
                     | _ => []
                     end) log.

Definition buffers_allocated (log : list call) : nat :=
  List.length (filter (fun c => match c with
                                | malloc_call n => malloc_succeeds n
                                | _ => false
                                end) log).

End Files.

(** The streams passed to [fclose], in order. *)
Definition streams_closed (log : list call) : list FILE :=
  flat_map (fun c => match c with
                     | fclose_call f => [f]
                     | _ => []
                     end) log.

(** The number of buffers given back: one per [free], and the elements of
    the vector per [free_vec_and_elements]. *)
Definition buffers_released (log : list call) : nat :=
  list_sum (map (fun c => match c with
                          | free_call _ => 1%nat
                          | free_vec_and_elements_call v => List.length v
                          | _ => 0%nat
                          end) log).

(** The texts written to [stderr], and the names passed to [fopen]. *)
Definition diagnostics (log : list call) : list string :=
  flat_map (fun c => match c with
                     | fprintf_stderr text => [text]
                     | _ => []
                     end) log.

Definition files_requested (log : list call) : list string :=
  flat_map (fun c => match c with
                     | fopen_call n => [n]
                     | _ => []
                     end) log.

(** The results of reading each name in turn, if all succeed. *)
Fixpoint all_contents (read : string -> option string) (names : list string)
  : option (list string) :=
  match names with
  | [] => Some []
  | n :: rest =>
      match read n, all_contents read rest with
      | Some c, Some cs => Some (c :: cs)
      | _, _ => None
      end
  end.

(** An environment to evaluate in: the extension is [.src]; one file of
    five bytes, one whose size cannot be found, one that delivers fewer
    bytes than its size. *)
Module Sample.

Definition MIN_FILENAME_LEN : Z := 5.

Definition FILE_EXT : string := ".src".

Definition good : FILE :=
  {| fseek_end_result := 0; ftell_result := 5; stream := "x = 1" |}.

Definition unseekable : FILE :=
  {| fseek_end_result := -1; ftell_result := 0; stream := "" |}.

Definition short : FILE :=
  {| fseek_end_result := 0; ftell_result := 9; stream := "abc" |}.

Definition fopen (file_name : string) : option FILE :=
  if String.eqb file_name "a.src" then Some good
  else if String.eqb file_name "b.src" then Some good
  else if String.eqb file_name "pipe.src" then Some unseekable
  else if String.eqb file_name "short.src" then Some short
  else None.

Definition malloc_succeeds (size : Z) : bool := size <? 1000.

Definition read_all (names : list string) : io (option (list string)) :=
  read_source_code MIN_FILENAME_LEN FILE_EXT fopen malloc_succeeds names.

Definition read_one (file_name : string) : io (option string) :=
  read_source_file MIN_FILENAME_LEN FILE_EXT fopen malloc_succeeds file_name.

End Sample.

End SourceCodeFiles.

(** * Properties *)

(** ** [size_t] arithmetic *)

Lemma wrap_small (z : Z) : 0 <= z < SizeT.modulus -> SizeT.wrap z = z.
Proof. intros H. unfold SizeT.wrap. apply Z.mod_small. exact H. Qed.

Lemma sub_zero_one : SizeT.sub 0 1 = SizeT.max.
Proof. reflexivity. Qed.

Lemma sub_one (z : Z) : 1 <= z < SizeT.modulus -> SizeT.sub z 1 = z - 1.
Proof. intros H. unfold SizeT.sub. apply wrap_small. lia. Qed.

Lemma add_one (z : Z) : 0 <= z < SizeT.modulus - 1 -> SizeT.add z 1 = z + 1.
Proof. intros H. unfold SizeT.add. apply wrap_small. lia. Qed.

(** ** Reads *)

Lemma token_at_bounds (tokens : list string) (i : Z) (t : string) :
  token_at tokens i = Some t -> 0 <= i < vec_len tokens.
Proof.
  unfold token_at. destruct (0 <=? i) eqn:E1; simpl; [|discriminate].
  destruct (i <? vec_len tokens) eqn:E2; [|discriminate]. lia.
Qed.

Lemma token_at_outside (tokens : list string) (i : Z) :
  vec_len tokens <= i -> token_at tokens i = None.
Proof.
  intros H. unfold token_at.
  destruct (i <? vec_len tokens) eqn:E; [lia|].
  rewrite andb_false_r. reflexivity.
Qed.

Lemma vec_get_some (tokens : list string) (i : Z) (t : string) :
  token_at tokens i = Some t -> vec_get tokens i = Return t.
Proof. intros H. unfold vec_get. rewrite H. reflexivity. Qed.

Lemma token_at_inside (tokens : list string) (i : Z) :
  0 <= i < vec_len tokens -> exists t, token_at tokens i = Some t.
Proof.
  intros H. unfold token_at.
  destruct (0 <=? i) eqn:E1; [|lia]. destruct (i <? vec_len tokens) eqn:E2; [|lia].
  simpl. destruct (nth_error tokens (Z.to_nat i)) eqn:E.
  - eauto.
  - apply nth_error_None in E. unfold vec_len in H. lia.
Qed.

Lemma range_tokens_nth (tokens : list string) (lo hi i : Z) (t : string) :
  0 <= lo -> lo <= i < hi -> token_at tokens i = Some t ->
  In t (range_tokens tokens lo hi).
Proof.
  intros Hlo Hi Ht. pose proof (token_at_bounds _ _ _ Ht) as Hb.
  unfold token_at in Ht.
  destruct ((0 <=? i) && (i <? vec_len tokens)); [|discriminate].
  unfold range_tokens.
  apply nth_error_In with (n := Z.to_nat (i - lo)).
  rewrite nth_error_firstn.
  destruct (Nat.ltb (Z.to_nat (i - lo)) (Z.to_nat (hi - lo))) eqn:E.
  - rewrite nth_error_skipn.
    replace (Z.to_nat lo + Z.to_nat (i - lo))%nat with (Z.to_nat i) by lia.
    exact Ht.
  - apply Nat.ltb_ge in E. lia.
Qed.

Lemma no_split_token (g : Z) (tokens : list string) (lo hi i : Z) :
  no_split g tokens lo hi = true -> in_tokens tokens lo hi = true ->
  lo <= i < hi ->
  exists t, token_at tokens i = Some t /\ scan_passes g t = true.
Proof.
  unfold no_split, in_tokens. intros Hall Hin Hi.
  repeat (apply andb_prop in Hin; destruct Hin as [Hin ?]).
  destruct (token_at_inside tokens i) as [t Ht]; [lia|].
  exists t. split; [exact Ht|].
  rewrite forallb_forall in Hall. apply Hall.
  apply range_tokens_nth with (i := i); [lia|lia|exact Ht].
Qed.

(** ** The parenthesis matcher *)

Lemma match_parens_loop_open (tokens : list string) (start0 : Z) (t : string) :
  token_at tokens start0 = Some t -> streq t PAREN_OPEN = true ->
  forall (n : nat) (i : Z) (stack matches : list Z),
  match_parens_loop n tokens start0 i stack matches =
  Return (vec_len stack + Z.of_nat n =? 0, matches).
Proof.
  intros Ht Hopen. induction n as [|n IH]; intros i stack matches.
  - simpl. rewrite Z.add_0_r. reflexivity.
  - cbn [match_parens_loop]. rewrite (vec_get_some _ _ _ Ht). cbn [bind].
    rewrite Hopen. rewrite IH. unfold vec_len. simpl List.length.
    replace (Z.of_nat (S (List.length stack)) + Z.of_nat n)
      with (Z.of_nat (List.length stack) + Z.of_nat (S n)) by lia.
    reflexivity.
Qed.

Lemma match_parens_loop_other (tokens : list string) (start0 : Z) (t : string) :
  token_at tokens start0 = Some t ->
  streq t PAREN_OPEN = false -> streq t PAREN_CLOSE = false ->
  forall (n : nat) (i : Z) (stack matches : list Z),
  match_parens_loop n tokens start0 i stack matches =
  Return (vec_len stack =? 0, matches).
Proof.
  intros Ht Hopen Hclose. induction n as [|n IH]; intros i stack matches.
  - reflexivity.
  - cbn [match_parens_loop]. rewrite (vec_get_some _ _ _ Ht). cbn [bind].
    rewrite Hopen, Hclose. apply IH.
Qed.

Lemma match_parens_loop_close (tokens : list string) (start0 : Z) (t : string) :
  token_at tokens start0 = Some t ->
  streq t PAREN_OPEN = false -> streq t PAREN_CLOSE = true ->
  forall (n : nat) (i : Z) (matches : list Z),
  match_parens_loop (S n) tokens start0 i [] matches = Return (false, matches).
Proof.
  intros Ht Hopen Hclose n i matches.
  cbn [match_parens_loop]. rewrite (vec_get_some _ _ _ Ht). cbn [bind].
  rewrite Hopen, Hclose. reflexivity.
Qed.

(** On a non-empty range, [match_parens] decides by the first token of the
    range alone: it returns [true] exactly when that token is not a
    parenthesis, and it never writes to the table. *)
Lemma match_parens_verdict (tokens : list string) (start0 end0 : Z)
  (matches : list Z) (t : string) :
  start0 < end0 -> token_at tokens start0 = Some t ->
  match_parens tokens start0 end0 matches =
  Return (negb (streq t PAREN_OPEN) && negb (streq t PAREN_CLOSE), matches).
Proof.
  intros Hlt Ht. unfold match_parens.
  destruct (streq t PAREN_OPEN) eqn:Hopen.
  - rewrite (match_parens_loop_open tokens start0 t Ht Hopen).
    unfold vec_len. simpl List.length.
    destruct (Z.of_nat 0 + Z.of_nat (Z.to_nat (end0 - start0)) =? 0) eqn:E;
      [|reflexivity].
    apply Z.eqb_eq in E. lia.
  - destruct (streq t PAREN_CLOSE) eqn:Hclose.
    + destruct (Z.to_nat (end0 - start0)) as [|n] eqn:E; [lia|].
      apply (match_parens_loop_close tokens start0 t Ht Hopen Hclose).
    + apply (match_parens_loop_other tokens start0 t Ht Hopen Hclose).
Qed.

(** ** Operand tokens *)

Lemma operand_not_special (t : string) :
  is_operand t = true ->
  streq t PAREN_OPEN = false /\ streq t PAREN_CLOSE = false /\
  streq t ASSIGNMENT = false /\ streq t ADD = false /\ streq t SUB = false /\
  streq t MUL = false /\ streq t DIV = false /\ streq t MOD = false.
Proof.
  unfold is_operand. intros H. apply negb_true_iff in H. simpl in H.
  repeat (apply orb_false_elim in H; destruct H as [? H]). tauto.
Qed.

Lemma operand_not_open (t : string) :
  is_operand t = true -> streq t PAREN_OPEN = false.
Proof. intros H. apply operand_not_special in H. tauto. Qed.

(** ** The operator table *)

Lemma operator_group_cases (g : Z) :
  operator_group g = nth 0 operators [] \/
  operator_group g = nth 1 operators [] \/
  operator_group g = nth 2 operators [] \/
  operator_group g = [].
Proof.
  unfold operator_group.
  destruct (Z.to_nat g) as [|[|[|n]]]; auto.
  right. right. right. destruct n; reflexivity.
Qed.

Lemma tier_operator_not_close (g : Z) (t : string) (f : parser_name) :
  tier_operator g t = Some f -> streq t PAREN_CLOSE = false.
Proof.
  unfold tier_operator, streq.
  destruct (String.eqb t PAREN_CLOSE) eqn:E; [|reflexivity].
  apply String.eqb_eq in E. subst t.
  destruct (operator_group_cases g) as [H|[H|[H|H]]]; rewrite H; discriminate.
Qed.

(** Every tier steps over an operand token. *)
Lemma operand_passes (g : Z) (t : string) :
  is_operand t = true -> scan_passes g t = true.
Proof.
  intros H. apply operand_not_special in H.
  destruct H as (_ & Hc & Ha & Hadd & Hsub & Hmul & Hdiv & Hmod).
  unfold scan_passes, tier_operator. rewrite Hc.
  unfold ASSIGNMENT, ADD, SUB, MUL, DIV, MOD in *.
  destruct (operator_group_cases g) as [E|[E|[E|E]]]; rewrite E; simpl;
    rewrite ?Ha, ?Hadd, ?Hsub, ?Hmul, ?Hdiv, ?Hmod; reflexivity.
Qed.

(** ** Unfolding the parser *)

Section ParserFacts.

Context {namespace : Type}.
Variable get_literal_type : string -> option type.
Variable var_lookup : @namespace -> string -> ast_node.

Abbreviation parser := (@expression_parser namespace).
Abbreviation psub := (parse_sub_expression get_literal_type var_lookup).

Section Steps.

Variable rec : parser -> outcome ast_node.

Abbreviation scan := (scan_tokens var_lookup rec).
Abbreviation groups := (scan_groups var_lookup rec).
Abbreviation call := (call_parse_func var_lookup rec).

Lemma scan_tokens_eq (steps : nat) (p : parser) :
  scan steps p =
  if start p <=? token_index p then
    match steps with
    | O => out_of_fuel
    | S steps' =>
        tok <- vec_get (tokenv p) (token_index p) ;;
        let p := set_token p tok in
        if streq (token p) PAREN_CLOSE then
          m <- array_get (paren_matches p)
                 (SizeT.sub (token_index p) (expr_start p)) ;;
          let p := set_token_index p m in
          scan steps' (set_token_index p (SizeT.sub (token_index p) 1))
        else
          operator_node <- compile_operator var_lookup rec p ;;
          if negb (is_null operator_node) then Return (returned operator_node)
          else scan steps' (set_token_index p (SizeT.sub (token_index p) 1))
    end
  else Return (fell_through p).
Proof. destruct steps; reflexivity. Qed.

Lemma scan_groups_eq (steps rounds : nat) (p : parser) :
  groups steps rounds p =
  if op_group_index p <? COMMON_PRECEDENCE_GROUPS then
    match rounds with
    | O => out_of_fuel
    | S rounds' =>
        let p := set_token_index p (SizeT.sub (end_ p) 1) in
        r <- scan steps p ;;
        match r with
        | returned operator_node => Return operator_node
        | fell_through p =>
            groups steps rounds'
              (set_op_group_index p (SizeT.add (op_group_index p) 1))
        end
    end
  else Return NULL.
Proof. destruct rounds; reflexivity. Qed.

Lemma compile_operator_loop_find (ops : list operator) (p : parser) :
  compile_operator_loop var_lookup rec ops p =
  match option_map parse_func
          (find (fun op => streq (token p) (operator_token op)) ops) with
  | Some f => call f p
  | None => Return NULL
  end.
Proof.
  induction ops as [|op ops IH]; simpl; [reflexivity|].
  destruct (streq (token p) (operator_token op)); [reflexivity|exact IH].
Qed.

Lemma compile_operator_tier (p : parser) :
  compile_operator var_lookup rec p =
  match tier_operator (op_group_index p) (token p) with
  | Some f => call f p
  | None => Return NULL
  end.
Proof. unfold compile_operator, tier_operator. apply compile_operator_loop_find. Qed.

Lemma binary_operation_parser_not_null (p : parser) (gen : assembly_generator)
  (n : ast_node) :
  binary_operation_parser rec p gen = Return n -> is_null n = false.
Proof.
  unfold binary_operation_parser.
  destruct (rec (set_end p (token_index p))) as [l| | |]; simpl; try discriminate.
  destruct (rec (set_start p (SizeT.add (token_index p) 1))) as [r| | |];
    simpl; try discriminate.
  destruct (expr_type_of r); simpl; try discriminate.
  intros H. injection H as <-. reflexivity.
Qed.

Lemma assignment_parser_not_null (p : parser) (n : ast_node) :
  assignment_parser var_lookup rec p = Return n -> is_null n = false.
Proof.
  unfold assignment_parser, raise_compiler_error.
  destruct (negb _); [discriminate|].
  destruct (vec_get _ _); simpl; try discriminate.
  destruct (rec _) as [v| | |]; simpl; try discriminate.
  destruct (expr_type_of v); simpl; try discriminate.
  intros H. injection H as <-. reflexivity.
Qed.

(** No operator parser returns [NULL]: each one returns the node that
    [binary_operation_new] built, or does not return. *)
Lemma call_parse_func_not_null (f : parser_name) (p : parser) (n : ast_node) :
  call f p = Return n -> is_null n = false.
Proof.
  destruct f; simpl; unfold mul_parser, div_parser, mod_parser, add_parser,
    sub_parser; eauto using binary_operation_parser_not_null,
    assignment_parser_not_null.
Qed.

(** One iteration of the [while] loop on a token the tier steps over. *)
Lemma scan_tokens_pass (steps : nat) (p : parser) (t : string) :
  start p <= token_index p ->
  token_at (tokenv p) (token_index p) = Some t ->
  scan_passes (op_group_index p) t = true ->
  scan (S steps) p = scan steps (at_index p (SizeT.sub (token_index p) 1) t).
Proof.
  intros Hge Ht Hpass. rewrite scan_tokens_eq.
  destruct (start p <=? token_index p) eqn:E; [|lia].
  rewrite (vec_get_some _ _ _ Ht). simpl.
  unfold scan_passes in Hpass. apply andb_prop in Hpass as [Hc Hop].
  apply negb_true_iff in Hc. rewrite Hc.
  rewrite compile_operator_tier. simpl.
  destruct (tier_operator (op_group_index p) t); [discriminate|].
  reflexivity.
Qed.

(** One iteration of the [while] loop on an operator of the tier. *)
Lemma scan_tokens_operator (steps : nat) (p : parser) (t : string)
  (f : parser_name) :
  start p <= token_index p ->
  token_at (tokenv p) (token_index p) = Some t ->
  tier_operator (op_group_index p) t = Some f ->
  scan (S steps) p = n <- call f (set_token p t) ;; Return (returned n).
Proof.
  intros Hge Ht Hop. rewrite scan_tokens_eq.
  destruct (start p <=? token_index p) eqn:E; [|lia].
  rewrite (vec_get_some _ _ _ Ht). simpl.
  rewrite (tier_operator_not_close _ _ _ Hop).
  rewrite compile_operator_tier. simpl. rewrite Hop.
  destruct (call f (set_token p t)) as [n| | |] eqn:Ec; simpl; try reflexivity.
  rewrite (call_parse_func_not_null _ _ _ Ec). reflexivity.
Qed.

(** [m + 1] iterations of the [while] loop over tokens the tier steps
    over, from index [lo + m] down to [lo]. *)
Lemma scan_tokens_skip (m : nat) :
  forall (steps : nat) (p : parser) (lo : Z),
  0 <= lo -> start p <= lo -> token_index p = lo + Z.of_nat m ->
  vec_len (tokenv p) < SizeT.modulus ->
  (forall i, lo <= i <= lo + Z.of_nat m ->
     exists t, token_at (tokenv p) i = Some t /\
               scan_passes (op_group_index p) t = true) ->
  exists t, scan (S m + steps) p = scan steps (at_index p (SizeT.sub lo 1) t).
Proof.
  induction m as [|m IH]; intros steps p lo Hlo Hstart Hidx Hlen Hall.
  - destruct (Hall lo) as [t [Ht Hp]]; [lia|].
    exists t. replace lo with (token_index p) by lia.
    apply scan_tokens_pass.
    + lia.
    + replace (token_index p) with lo by lia. exact Ht.
    + exact Hp.
  - destruct (Hall (token_index p)) as [t1 [Ht1 Hp1]]; [lia|].
    pose proof (token_at_bounds _ _ _ Ht1) as Hb.
    assert (Hrest : exists t,
              scan (S m + steps) (at_index p (SizeT.sub (token_index p) 1) t1) =
              scan steps
                (at_index (at_index p (SizeT.sub (token_index p) 1) t1)
                   (SizeT.sub lo 1) t)).
    { apply IH; simpl; try assumption.
      - rewrite sub_one by lia. lia.
      - intros i Hi. apply Hall. lia. }
    destruct Hrest as [t Ht]. exists t.
    change (S (S m) + steps)%nat with (S (S m + steps)).
    rewrite (scan_tokens_pass _ p t1); [exact Ht|lia|exact Ht1|exact Hp1].
Qed.

Lemma in_tokens_bounds (tokens : list string) (lo hi : Z) :
  in_tokens tokens lo hi = true ->
  0 <= lo /\ lo <= hi /\ hi <= vec_len tokens /\ vec_len tokens < SizeT.modulus.
Proof.
  unfold in_tokens. intros H.
  repeat (apply andb_prop in H; destruct H as [H ?]). lia.
Qed.

(** The scan of one tier, from the right edge [end - 1], stops at the first
    operator of the tier that it meets and calls the parser bound to it. *)
Lemma scan_tokens_find (steps : nat) (p : parser) (i : Z) (op : string)
  (f : parser_name) :
  in_tokens (tokenv p) (start p) (end_ p) = true ->
  start p <= i < end_ p ->
  no_split (op_group_index p) (tokenv p) (i + 1) (end_ p) = true ->
  token_at (tokenv p) i = Some op ->
  tier_operator (op_group_index p) op = Some f ->
  (Z.to_nat (end_ p - i) <= steps)%nat ->
  scan steps (set_token_index p (SizeT.sub (end_ p) 1)) =
  n <- call f (at_index p i op) ;; Return (returned n).
Proof.
  intros Hin Hi Hs Ht Hop Hsteps.
  destruct (in_tokens_bounds _ _ _ Hin) as (H0 & H1 & H2 & H3).
  rewrite sub_one by lia.
  destruct (Z.eq_dec i (end_ p - 1)) as [->|Hne].
  - destruct steps as [|steps]; [lia|].
    rewrite (scan_tokens_operator _ _ op f); simpl; auto. lia.
  - set (m := Z.to_nat (end_ p - 1 - (i + 1))).
    destruct (scan_tokens_skip m (steps - S m)
                (set_token_index p (end_ p - 1)) (i + 1)) as [t Hskip]; simpl;
      try lia.
    + intros j Hj.
      assert (Hin' : in_tokens (tokenv p) (i + 1) (end_ p) = true).
      { unfold in_tokens.
        repeat (apply andb_true_intro; split); lia. }
      apply (no_split_token _ _ _ _ j Hs Hin'). lia.
    + replace steps with (S m + (steps - S m))%nat at 1 by lia.
      rewrite Hskip. rewrite sub_one by lia.
      replace (i + 1 - 1) with i by lia.
      destruct (steps - S m)%nat as [|k] eqn:Ek; [lia|].
      rewrite (scan_tokens_operator _ _ op f); simpl; auto. lia.
Qed.

(** With [start >= 1], a tier that meets no operator leaves the loop by its
    condition, at index [start - 1]. *)
Lemma scan_tokens_exhaust (steps : nat) (p : parser) :
  in_tokens (tokenv p) (start p) (end_ p) = true ->
  1 <= start p < end_ p ->
  no_split (op_group_index p) (tokenv p) (start p) (end_ p) = true ->
  (Z.to_nat (end_ p - start p) <= steps)%nat ->
  exists t,
    scan steps (set_token_index p (SizeT.sub (end_ p) 1)) =
    Return (fell_through (at_index p (start p - 1) t)).
Proof.
  intros Hin Hi Hs Hsteps.
  destruct (in_tokens_bounds _ _ _ Hin) as (H0 & H1 & H2 & H3).
  rewrite sub_one by lia.
  set (m := Z.to_nat (end_ p - 1 - start p)).
  destruct (scan_tokens_skip m (steps - S m)
              (set_token_index p (end_ p - 1)) (start p)) as [t Hskip]; simpl;
    try lia.
  - intros j Hj. apply (no_split_token _ _ _ _ j Hs Hin). lia.
  - exists t. replace steps with (S m + (steps - S m))%nat at 1 by lia.
    rewrite Hskip. rewrite sub_one by lia.
    rewrite scan_tokens_eq. simpl.
    destruct (start p <=? start p - 1) eqn:E; [lia|reflexivity].
Qed.

(** With [start = 0], a tier that meets no operator decrements
    [token_index] from 0 to [SIZE_MAX]; the loop condition still holds and
    the next read is outside the token vector. *)
Lemma scan_tokens_wrap (steps : nat) (p : parser) :
  in_tokens (tokenv p) (start p) (end_ p) = true ->
  start p = 0 -> 0 < end_ p ->
  no_split (op_group_index p) (tokenv p) (start p) (end_ p) = true ->
  (Z.to_nat (end_ p) + 1 <= steps)%nat ->
  scan steps (set_token_index p (SizeT.sub (end_ p) 1)) =
  undefined (token_read SizeT.max).
Proof.
  intros Hin Hz Hpos Hs Hsteps.
  destruct (in_tokens_bounds _ _ _ Hin) as (H0 & H1 & H2 & H3).
  rewrite sub_one by lia.
  set (m := Z.to_nat (end_ p - 1)).
  destruct (scan_tokens_skip m (steps - S m)
              (set_token_index p (end_ p - 1)) 0) as [t Hskip]; simpl;
    try lia.
  - intros j Hj. rewrite Hz in Hs, Hin.
    apply (no_split_token _ _ _ _ j Hs Hin). lia.
  - replace steps with (S m + (steps - S m))%nat at 1 by lia.
    rewrite Hskip. rewrite sub_zero_one.
    destruct (steps - S m)%nat as [|k] eqn:Ek; [lia|].
    rewrite scan_tokens_eq. simpl. rewrite Hz.
    change (0 <=? SizeT.max) with true. cbv iota.
    unfold vec_get. rewrite token_at_outside; [reflexivity|].
    unfold SizeT.max. lia.
Qed.

Lemma set_op_group_index_self (p : parser) :
  set_op_group_index p (op_group_index p) = p.
Proof. destruct p. reflexivity. Qed.

Lemma tiers_exhausted_step (g0 g : Z) (tokens : list string) (lo hi : Z) :
  0 <= g0 < g ->
  tiers_exhausted g0 g tokens lo hi =
  no_split g0 tokens lo hi && tiers_exhausted (g0 + 1) g tokens lo hi.
Proof.
  intros H. unfold tiers_exhausted.
  replace (Z.to_nat (g - g0)) with (S (Z.to_nat (g - (g0 + 1)))) by lia.
  replace (Z.to_nat (g0 + 1)) with (S (Z.to_nat g0)) by lia.
  simpl. rewrite Z2Nat.id by lia. reflexivity.
Qed.

(** One round of the [for] loop on a tier without a split, [start >= 1]. *)
Lemma scan_groups_exhaust (steps rounds : nat) (p : parser) :
  0 <= op_group_index p < COMMON_PRECEDENCE_GROUPS ->
  in_tokens (tokenv p) (start p) (end_ p) = true ->
  1 <= start p < end_ p ->
  no_split (op_group_index p) (tokenv p) (start p) (end_ p) = true ->
  (Z.to_nat (end_ p - start p) <= steps)%nat ->
  exists t,
    groups steps (S rounds) p =
    groups steps rounds
      (set_op_group_index (at_index p (start p - 1) t) (op_group_index p + 1)).
Proof.
  intros Hg Hin Hi Hs Hsteps.
  destruct (scan_tokens_exhaust steps p Hin Hi Hs Hsteps) as [t Ht].
  exists t. rewrite scan_groups_eq.
  destruct (op_group_index p <? COMMON_PRECEDENCE_GROUPS) eqn:E; [|lia].
  cbv zeta. rewrite Ht. cbn [bind].
  replace (SizeT.add (op_group_index (at_index p (start p - 1) t)) 1)
    with (op_group_index p + 1); [reflexivity|].
  simpl. unfold COMMON_PRECEDENCE_GROUPS in Hg. rewrite add_one; [reflexivity|].
  unfold SizeT.modulus. lia.
Qed.

(** The [for] loop goes through the tiers from the current one upwards; the
    first tier with an operator outside what the scan steps over calls the
    parser bound to it, in a state that holds that tier's index. *)
Lemma scan_groups_find (n : nat) :
  forall (steps rounds : nat) (p : parser) (g i : Z) (op : string)
         (f : parser_name),
  0 <= op_group_index p -> g = op_group_index p + Z.of_nat n ->
  g < COMMON_PRECEDENCE_GROUPS ->
  in_tokens (tokenv p) (start p) (end_ p) = true ->
  start p <= i < end_ p ->
  (n <> O -> 1 <= start p) ->
  tiers_exhausted (op_group_index p) g (tokenv p) (start p) (end_ p) = true ->
  no_split g (tokenv p) (i + 1) (end_ p) = true ->
  token_at (tokenv p) i = Some op -> tier_operator g op = Some f ->
  (Z.to_nat (end_ p - start p) <= steps)%nat -> (n < rounds)%nat ->
  groups steps rounds p = call f (at_index (set_op_group_index p g) i op).
Proof.
  induction n as [|n IH];
    intros steps rounds p g i op f Hg0 Hg Hlt Hin Hi Hst Hex Hs Ht Hop Hsteps Hr.
  - assert (Hg' : g = op_group_index p) by lia. clear Hg. subst g.
    rewrite set_op_group_index_self.
    destruct rounds as [|rounds]; [lia|].
    rewrite scan_groups_eq.
    destruct (op_group_index p <? COMMON_PRECEDENCE_GROUPS) eqn:E; [|lia].
    cbv zeta. rewrite (scan_tokens_find steps p i op f); auto; [|lia].
    destruct (call f (at_index p i op)); reflexivity.
  - destruct rounds as [|rounds]; [lia|].
    rewrite tiers_exhausted_step in Hex by lia.
    apply andb_prop in Hex as [Hex0 Hex].
    destruct (scan_groups_exhaust steps rounds p) as [t Hstep]; auto; try lia.
    rewrite Hstep.
    apply (IH steps rounds
             (set_op_group_index (at_index p (start p - 1) t)
                (op_group_index p + 1)) g i op f); simpl; auto; lia.
Qed.

(** With [start >= 1], when no tier from the current one upwards has a
    split, the [for] loop ends and the function returns [NULL]. *)
Lemma scan_groups_none (n : nat) :
  forall (steps rounds : nat) (p : parser),
  0 <= op_group_index p ->
  op_group_index p + Z.of_nat n = COMMON_PRECEDENCE_GROUPS ->
  in_tokens (tokenv p) (start p) (end_ p) = true ->
  1 <= start p < end_ p ->
  tiers_exhausted (op_group_index p) COMMON_PRECEDENCE_GROUPS
    (tokenv p) (start p) (end_ p) = true ->
  (Z.to_nat (end_ p - start p) <= steps)%nat -> (n <= rounds)%nat ->
  groups steps rounds p = Return NULL.
Proof.
  induction n as [|n IH]; intros steps rounds p Hg0 Hg Hin Hi Hex Hsteps Hr.
  - rewrite scan_groups_eq.
    destruct (op_group_index p <? COMMON_PRECEDENCE_GROUPS) eqn:E; [lia|].
    reflexivity.
  - destruct rounds as [|rounds]; [lia|].
    rewrite tiers_exhausted_step in Hex by lia.
    apply andb_prop in Hex as [Hex0 Hex].
    destruct (scan_groups_exhaust steps rounds p) as [t Hstep]; auto; try lia.
    rewrite Hstep. apply IH; simpl; auto; lia.
Qed.

(** With [start = 0], the first tier scanned that has no split runs off the
    left edge. *)
Lemma scan_groups_wrap (steps rounds : nat) (p : parser) :
  0 <= op_group_index p < COMMON_PRECEDENCE_GROUPS ->
  in_tokens (tokenv p) (start p) (end_ p) = true ->
  start p = 0 -> 0 < end_ p ->
  no_split (op_group_index p) (tokenv p) (start p) (end_ p) = true ->
  (Z.to_nat (end_ p) + 1 <= steps)%nat ->
  groups steps (S rounds) p = undefined (token_read SizeT.max).
Proof.
  intros Hg Hin Hz Hpos Hs Hsteps.
  rewrite scan_groups_eq.
  destruct (op_group_index p <? COMMON_PRECEDENCE_GROUPS) eqn:E; [|lia].
  cbv zeta. rewrite scan_tokens_wrap; auto.
Qed.

(** A range of more than one token on which the strip test fails goes to
    the tier scan. *)
Lemma body_scans (steps : nat) (p : parser) :
  SizeT.add (start p) 1 <> end_ p ->
  strip_test_fails (tokenv p) (start p) (end_ p) = true ->
  parse_sub_expression_body get_literal_type var_lookup rec steps p =
  groups steps (Z.to_nat COMMON_PRECEDENCE_GROUPS) p.
Proof.
  intros Hne Hfail. unfold parse_sub_expression_body.
  destruct (SizeT.add (start p) 1 =? end_ p) eqn:E; [lia|].
  unfold strip_test_fails in Hfail. unfold vec_get.
  destruct (token_at (tokenv p) (start p)) as [first|]; [|discriminate].
  cbn [bind].
  destruct (streq first PAREN_OPEN); [|reflexivity].
  destruct (token_at (tokenv p) (end_ p)) as [after|]; [|discriminate].
  cbn [bind]. apply negb_true_iff in Hfail. rewrite Hfail. reflexivity.
Qed.

(** A range on which the strip test holds goes to
    [parse_parenthetical_expression]. *)
Lemma body_strips (steps : nat) (p : parser) :
  SizeT.add (start p) 1 <> end_ p ->
  strip_test_holds (tokenv p) (start p) (end_ p) = true ->
  parse_sub_expression_body get_literal_type var_lookup rec steps p =
  rec (set_end (set_start p (SizeT.add (start p) 1)) (SizeT.sub (end_ p) 1)).
Proof.
  intros Hne Hholds. unfold parse_sub_expression_body.
  destruct (SizeT.add (start p) 1 =? end_ p) eqn:E; [lia|].
  unfold strip_test_holds in Hholds. unfold vec_get.
  destruct (token_at (tokenv p) (start p)) as [first|]; [|discriminate].
  destruct (token_at (tokenv p) (end_ p)) as [after|]; [|discriminate].
  apply andb_prop in Hholds as [H1 H2].
  cbn [bind]. rewrite H1. cbn [bind]. rewrite H2. reflexivity.
Qed.

End Steps.

(** ** More fuel never changes a result *)

Lemma refines_refl {A : Type} (r : outcome A) : refines r r.
Proof. right. reflexivity. Qed.

Lemma refines_bind {A B : Type} (c c' : outcome A) (k k' : A -> outcome B) :
  refines c c' -> (forall a, refines (k a) (k' a)) ->
  refines (bind c k) (bind c' k').
Proof.
  intros [->| ->] Hk.
  - left. reflexivity.
  - destruct c'; simpl; auto using refines_refl.
Qed.

Section Monotone.

Variables rec rec' : parser -> outcome ast_node.
Hypothesis rec_refines : forall p, refines (rec p) (rec' p).

Lemma binary_operation_parser_mono (p : parser) (gen : assembly_generator) :
  refines (binary_operation_parser rec p gen) (binary_operation_parser rec' p gen).
Proof.
  unfold binary_operation_parser.
  apply refines_bind; [apply rec_refines|]. intros l.
  apply refines_bind; [apply rec_refines|]. intros r.
  apply refines_refl.
Qed.

Lemma assignment_parser_mono (p : parser) :
  refines (assignment_parser var_lookup rec p) (assignment_parser var_lookup rec' p).
Proof.
  unfold assignment_parser.
  destruct (negb _); [apply refines_refl|].
  apply refines_bind; [apply refines_refl|]. intros t.
  apply refines_bind; [apply rec_refines|]. intros v.
  apply refines_refl.
Qed.

Lemma call_parse_func_mono (f : parser_name) (p : parser) :
  refines (call_parse_func var_lookup rec f p) (call_parse_func var_lookup rec' f p).
Proof.
  destruct f; simpl; unfold mul_parser, div_parser, mod_parser, add_parser,
    sub_parser; auto using binary_operation_parser_mono, assignment_parser_mono.
Qed.

Lemma compile_operator_mono (p : parser) :
  refines (compile_operator var_lookup rec p) (compile_operator var_lookup rec' p).
Proof.
  rewrite !compile_operator_tier.
  destruct (tier_operator _ _); [apply call_parse_func_mono|apply refines_refl].
Qed.

Lemma scan_tokens_mono (steps : nat) :
  forall (steps' : nat) (p : parser), (steps <= steps')%nat ->
  refines (scan_tokens var_lookup rec steps p) (scan_tokens var_lookup rec' steps' p).
Proof.
  induction steps as [|steps IH]; intros steps' p Hle;
    rewrite (scan_tokens_eq rec), (scan_tokens_eq rec');
    destruct (start p <=? token_index p); try apply refines_refl.
  - left. reflexivity.
  - destruct steps' as [|steps']; [lia|].
    apply refines_bind; [apply refines_refl|]. intros tok. cbv zeta.
    destruct (streq _ _).
    + apply refines_bind; [apply refines_refl|]. intros m. apply IH. lia.
    + apply refines_bind; [apply compile_operator_mono|]. intros n.
      destruct (negb (is_null n)); [apply refines_refl|]. apply IH. lia.
Qed.

Lemma scan_groups_mono (rounds : nat) :
  forall (steps steps' : nat) (p : parser), (steps <= steps')%nat ->
  refines (scan_groups var_lookup rec steps rounds p)
          (scan_groups var_lookup rec' steps' rounds p).
Proof.
  induction rounds as [|rounds IH]; intros steps steps' p Hle;
    rewrite (scan_groups_eq rec), (scan_groups_eq rec');
    destruct (op_group_index p <? COMMON_PRECEDENCE_GROUPS);
    try apply refines_refl.
  cbv zeta. apply refines_bind; [apply scan_tokens_mono; exact Hle|].
  intros [n|q]; [apply refines_refl|]. apply IH. exact Hle.
Qed.

Lemma parse_sub_expression_body_mono (steps steps' : nat) (p : parser) :
  (steps <= steps')%nat ->
  refines (parse_sub_expression_body get_literal_type var_lookup rec steps p)
          (parse_sub_expression_body get_literal_type var_lookup rec' steps' p).
Proof.
  intros Hle. unfold parse_sub_expression_body.
  destruct (SizeT.add (start p) 1 =? end_ p); [apply refines_refl|].
  apply refines_bind; [apply refines_refl|]. intros first.
  apply refines_bind; [apply refines_refl|]. intros [|].
  - apply rec_refines.
  - apply scan_groups_mono. exact Hle.
Qed.

End Monotone.

Lemma parse_sub_expression_mono (fuel : nat) :
  forall (fuel' : nat) (p : parser), (fuel <= fuel')%nat ->
  refines (psub fuel p) (psub fuel' p).
Proof.
  induction fuel as [|fuel IH]; intros fuel' p Hle.
  - left. reflexivity.
  - destruct fuel' as [|fuel']; [lia|]. simpl.
    apply parse_sub_expression_body_mono; [|lia].
    intros q. apply IH. lia.
Qed.

(** A result reached with some fuel is the result with any larger fuel. *)
Lemma parse_sub_expression_stable (fuel extra : nat) (p : parser)
  (r : outcome ast_node) :
  psub fuel p = r -> r <> out_of_fuel -> psub (fuel + extra) p = r.
Proof.
  intros H Hr.
  destruct (parse_sub_expression_mono fuel (fuel + extra) p) as [E|E]; [lia| |].
  - congruence.
  - congruence.
Qed.

Lemma parse_expression_stable (fuel extra : nat) (stack : parser)
  (matches : list Z) (tokens : list string) (l : line) (s e : Z)
  (names : namespace) (r : outcome ast_node) :
  parse_expression get_literal_type var_lookup fuel stack matches tokens l s e names = r ->
  r <> out_of_fuel ->
  parse_expression get_literal_type var_lookup (fuel + extra) stack matches tokens l s e names = r.
Proof.
  unfold parse_expression, raise_compiler_error.
  destruct (e <=? s); [intros <- _; reflexivity|].
  destruct (match_parens tokens s e matches) as [[valid table]| | |]; simpl;
    try (intros <- _; reflexivity).
  destruct valid; simpl; [|intros <- _; reflexivity].
  apply parse_sub_expression_stable.
Qed.

End ParserFacts.

(** ** The parser on token ranges *)

Section Claims.

Context {namespace : Type}.
Variable get_literal_type : string -> option type.
Variable var_lookup : @namespace -> string -> ast_node.

Abbreviation parser := (@expression_parser namespace).
Abbreviation psub := (parse_sub_expression get_literal_type var_lookup).

(** A range of one token goes to [parse_value]. *)
Lemma parse_sub_expression_single (fuel : nat) (p : parser) (tok : string) :
  SizeT.add (start p) 1 = end_ p ->
  token_at (tokenv p) (start p) = Some tok ->
  psub (S fuel) p =
  resolve_token get_literal_type var_lookup (ns p) (curr_line p) tok.
Proof.
  intros Hone Htok. simpl. unfold parse_sub_expression_body.
  rewrite Hone, Z.eqb_refl. unfold parse_value, resolve_token.
  rewrite (vec_get_some _ _ _ Htok). cbn [bind].
  destruct (get_literal_type tok); [reflexivity|].
  destruct (var_lookup (ns p) tok); reflexivity.
Qed.

(** C9. On a range of one token, [parse_sub_expression] goes to
    [parse_value]: literal-type inference is tried first and gives a literal
    leaf with the inferred type and the token's text; if it fails the token
    is looked up in the namespace and a found variable gives a variable leaf
    with its declared type and the token as name; if both fail the error
    "Invalid Value" is raised. *)
Theorem single_token_resolution (fuel : nat) (p : parser) (tok : string) :
  SizeT.add (start p) 1 = end_ p ->
  token_at (tokenv p) (start p) = Some tok ->
  psub (S fuel) p =
  match get_literal_type tok with
  | Some literal_type => Return (literal_node literal_type tok)
  | None =>
      match var_lookup (ns p) tok with
      | NULL => compiler_error "Invalid Value" (curr_line p)
      | literal_node declared _
      | var_node declared _
      | binary_operation declared _ _ _ => Return (var_node declared tok)
      end
  end.
Proof.
  intros Hone Htok.
  rewrite (parse_sub_expression_single fuel p tok Hone Htok). reflexivity.
Qed.

(** A tier scan that finds an operator of tier [g] at index [i], after the
    tiers below [g] found none, calls the parser bound to the operator in a
    state whose tier index is [g]. *)
Lemma parse_sub_expression_split (fuel : nat) (p : parser) (g i : Z)
  (op : string) (f : parser_name) :
  0 <= op_group_index p <= g -> g < COMMON_PRECEDENCE_GROUPS ->
  in_tokens (tokenv p) (start p) (end_ p) = true ->
  SizeT.add (start p) 1 <> end_ p ->
  strip_test_fails (tokenv p) (start p) (end_ p) = true ->
  start p <= i < end_ p ->
  (op_group_index p < g -> 1 <= start p) ->
  tiers_exhausted (op_group_index p) g (tokenv p) (start p) (end_ p) = true ->
  no_split g (tokenv p) (i + 1) (end_ p) = true ->
  token_at (tokenv p) i = Some op -> tier_operator g op = Some f ->
  (Z.to_nat (end_ p - start p) <= fuel)%nat ->
  psub (S fuel) p =
  call_parse_func var_lookup (psub fuel) f
    (at_index (set_op_group_index p g) i op).
Proof.
  intros Hg Hlt Hin Hne Hfail Hi Hst Hex Hs Ht Hop Hfuel.
  simpl. rewrite body_scans by assumption.
  apply (scan_groups_find var_lookup (psub fuel)
           (Z.to_nat (g - op_group_index p))); auto; lia.
Qed.

(** The split at an operator other than [=]. *)
Lemma parse_sub_expression_binary (fuel : nat) (p : parser) (g i : Z)
  (op : string) (f : parser_name) (gen : assembly_generator) :
  0 <= op_group_index p <= g -> g < COMMON_PRECEDENCE_GROUPS ->
  in_tokens (tokenv p) (start p) (end_ p) = true ->
  SizeT.add (start p) 1 <> end_ p ->
  strip_test_fails (tokenv p) (start p) (end_ p) = true ->
  start p <= i < end_ p ->
  (op_group_index p < g -> 1 <= start p) ->
  tiers_exhausted (op_group_index p) g (tokenv p) (start p) (end_ p) = true ->
  no_split g (tokenv p) (i + 1) (end_ p) = true ->
  token_at (tokenv p) i = Some op -> tier_operator g op = Some f ->
  binary_generator f = Some gen ->
  (Z.to_nat (end_ p - start p) <= fuel)%nat ->
  psub (S fuel) p =
    (left <- psub fuel (set_end (at_index (set_op_group_index p g) i op) i) ;;
     right <- psub fuel
                (set_start (at_index (set_op_group_index p g) i op) (i + 1)) ;;
     t <- expr_type_of right ;;
     Return (binary_operation t left right gen)).
Proof.
  intros Hg Hlt Hin Hne Hfail Hi Hst Hex Hs Ht Hop Hgen Hfuel.
  rewrite (parse_sub_expression_split fuel p g i op f) by assumption.
  destruct (in_tokens_bounds _ _ _ Hin) as (H0 & H1 & H2 & H3).
  assert (Hadd : SizeT.add i 1 = i + 1) by (apply add_one; lia).
  destruct f; simpl in Hgen; try discriminate; injection Hgen as <-; simpl;
    unfold mul_parser, div_parser, mod_parser, add_parser, sub_parser,
      binary_operation_parser; simpl; rewrite Hadd; reflexivity.
Qed.

(** The split at an operator other than [=]. When the tier scan finds the
    operator at index [i] in tier [g], the left operand is parsed on
    [start, i) and the right operand on [i + 1, end); both operand parsers
    are copies of the parser state at the split, so both hold tier [g], the
    tier in which the operator was found. The node takes the type of the
    right operand and the emission handler of the operator. *)
Theorem binary_split_continues_tier (fuel : nat) (p : parser) (g i : Z)
  (op : string) (f : parser_name) (gen : assembly_generator) :
  0 <= op_group_index p <= g -> g < COMMON_PRECEDENCE_GROUPS ->
  in_tokens (tokenv p) (start p) (end_ p) = true ->
  SizeT.add (start p) 1 <> end_ p ->
  strip_test_fails (tokenv p) (start p) (end_ p) = true ->
  start p <= i < end_ p ->
  (op_group_index p < g -> 1 <= start p) ->
  tiers_exhausted (op_group_index p) g (tokenv p) (start p) (end_ p) = true ->
  no_split g (tokenv p) (i + 1) (end_ p) = true ->
  token_at (tokenv p) i = Some op -> tier_operator g op = Some f ->
  binary_generator f = Some gen ->
  (Z.to_nat (end_ p - start p) <= fuel)%nat ->
  let left_parser := set_end (at_index (set_op_group_index p g) i op) i in
  let right_parser := set_start (at_index (set_op_group_index p g) i op) (i + 1) in
  psub (S fuel) p =
    (left <- psub fuel left_parser ;;
     right <- psub fuel right_parser ;;
     t <- expr_type_of right ;;
     Return (binary_operation t left right gen)) /\
  (start left_parser = start p /\ end_ left_parser = i /\
   op_group_index left_parser = g) /\
  (start right_parser = i + 1 /\ end_ right_parser = end_ p /\
   op_group_index right_parser = g).
Proof.
  intros Hg Hlt Hin Hne Hfail Hi Hst Hex Hs Ht Hop Hgen Hfuel.
  cbv zeta. split; [|simpl; auto].
  apply (parse_sub_expression_binary fuel p g i op f gen); assumption.
Qed.

(** The split at [=]: "Invalid Assignment" unless [i - expr_start = 1],
    otherwise the value is parsed on [i + 1, end) from tier 0. *)
Lemma parse_sub_expression_assignment (fuel : nat) (p : parser) (i : Z) :
  op_group_index p = 0 ->
  0 <= expr_start p <= start p ->
  in_tokens (tokenv p) (start p) (end_ p) = true ->
  SizeT.add (start p) 1 <> end_ p ->
  strip_test_fails (tokenv p) (start p) (end_ p) = true ->
  start p <= i < end_ p ->
  token_at (tokenv p) i = Some ASSIGNMENT ->
  no_split 0 (tokenv p) (i + 1) (end_ p) = true ->
  (Z.to_nat (end_ p - start p) <= fuel)%nat ->
  psub (S fuel) p =
  if i - expr_start p =? 1 then
    name_token <- vec_get (tokenv p) (expr_start p) ;;
    value <- psub fuel (set_start (at_index p i ASSIGNMENT) (i + 1)) ;;
    t <- expr_type_of value ;;
    Return (binary_operation t (var_lookup (ns p) name_token) value
              assignment_assembly)
  else compiler_error "Invalid Assignment" (curr_line p).
Proof.
  intros Hg Hes Hin Hne Hfail Hi Ht Hs Hfuel.
  destruct (in_tokens_bounds _ _ _ Hin) as (H0 & H1 & H2 & H3).
  rewrite (parse_sub_expression_split fuel p 0 i ASSIGNMENT assignment_parser_ptr);
    try assumption; try (rewrite Hg; reflexivity); try lia.
  - replace (set_op_group_index p 0) with p
      by (rewrite <- Hg; symmetry; apply set_op_group_index_self).
    simpl. unfold assignment_parser, raise_compiler_error. simpl.
    assert (Hsub : SizeT.sub i (expr_start p) = i - expr_start p).
    { unfold SizeT.sub. apply wrap_small. lia. }
    rewrite Hsub.
    destruct (i - expr_start p =? 1) eqn:E; simpl; [|reflexivity].
    rewrite sub_one by lia. rewrite add_one by lia.
    replace (i - 1) with (expr_start p) by lia. reflexivity.
  - reflexivity.
  - reflexivity.
Qed.

(** On a non-empty range [parse_expression] raises "Mismatched
    Parentheses" exactly when the first token of the range is a
    parenthesis; otherwise it goes on to [parse_sub_expression], whatever
    parentheses the rest of the range holds. *)
Lemma parse_expression_first_token (fuel : nat) (stack : parser)
  (matches : list Z) (tokens : list string) (l : line) (s e : Z)
  (names : namespace) (t : string) :
  s < e -> token_at tokens s = Some t ->
  parse_expression get_literal_type var_lookup fuel stack matches tokens l s e names =
  if negb (streq t PAREN_OPEN) && negb (streq t PAREN_CLOSE) then
    psub fuel (init_expression_parser stack tokens l s e names)
  else compiler_error "Mismatched Parentheses" l.
Proof.
  intros Hlt Ht. unfold parse_expression.
  replace (e <=? s) with false by (symmetry; apply Z.leb_gt; exact Hlt).
  rewrite (match_parens_verdict tokens s e matches t Hlt Ht). cbn [bind fst].
  destruct (negb (streq t PAREN_OPEN) && negb (streq t PAREN_CLOSE));
    reflexivity.
Qed.

(** C8. On a statement [s, e) of several tokens whose scan of tier 0 finds
    [=] at index [i], the parse raises "Invalid Assignment" unless
    [i - s = 1], that is unless exactly one token lies between the start of
    the statement and the [=]. Otherwise the right side is parsed on
    [i + 1, e), up to the end of the statement and from the lowest tier,
    and the assignment node takes the type of that value; its left child is
    what the namespace holds for the first token. *)
Theorem assignment_shape (fuel : nat) (stack : parser) (matches : list Z)
  (tokens : list string) (l : line) (s e : Z) (names : namespace) (i : Z)
  (first : string) :
  in_tokens tokens s e = true ->
  SizeT.add s 1 <> e ->
  token_at tokens s = Some first ->
  streq first PAREN_OPEN = false -> streq first PAREN_CLOSE = false ->
  s <= i < e ->
  token_at tokens i = Some ASSIGNMENT ->
  no_split 0 tokens (i + 1) e = true ->
  (Z.to_nat (e - s) <= fuel)%nat ->
  let val_parser :=
    set_start
      (at_index (init_expression_parser stack tokens l s e names) i ASSIGNMENT)
      (i + 1) in
  parse_expression get_literal_type var_lookup (S fuel) stack matches tokens l
    s e names =
    (if i - s =? 1 then
       value <- psub fuel val_parser ;;
       t <- expr_type_of value ;;
       Return (binary_operation t (var_lookup names first) value
                 assignment_assembly)
     else compiler_error "Invalid Assignment" l) /\
  start val_parser = i + 1 /\ end_ val_parser = e /\
  op_group_index val_parser = 0.
Proof.
  intros Hin Hne Hfirst Hopen Hclose Hi Ht Hs Hfuel.
  cbv zeta. split; [|simpl; auto].
  destruct (in_tokens_bounds _ _ _ Hin) as (H0 & H1 & H2 & H3).
  rewrite (parse_expression_first_token (S fuel) stack matches tokens l s e
             names first) by (assumption || lia).
  rewrite Hopen, Hclose. cbn [negb andb].
  rewrite (parse_sub_expression_assignment fuel
             (init_expression_parser stack tokens l s e names) i);
    simpl; try assumption; try lia.
  - unfold vec_get. rewrite Hfirst. reflexivity.
  - unfold strip_test_fails. rewrite Hfirst, Hopen. reflexivity.
Qed.

End Claims.

(** ** Chains of operands after index 0

    The two shapes of the specification's precedence and associativity
    properties, on a range that starts at index 1, for any operand tokens. *)

Section Shapes.

Context {namespace : Type}.
Variable get_literal_type : string -> option type.
Variable var_lookup : @namespace -> string -> ast_node.
Variables (pre a b c : string) (l : line) (names : namespace).
Variables (t0 : string) (ti es : Z) (table : list Z).
Hypothesis a_operand : is_operand a = true.
Hypothesis b_operand : is_operand b = true.
Hypothesis c_operand : is_operand c = true.

Abbreviation psub := (parse_sub_expression get_literal_type var_lookup).
Abbreviation value := (resolve_token get_literal_type var_lookup names l).

Ltac operands_pass :=
  rewrite ?(operand_passes _ a a_operand), ?(operand_passes _ b b_operand),
    ?(operand_passes _ c c_operand);
  reflexivity.

Ltac range_condition :=
  lazymatch goal with
  | |- strip_test_fails _ _ _ = true =>
      unfold strip_test_fails; simpl;
      rewrite ?operand_not_open by assumption; reflexivity
  | |- tiers_exhausted _ _ _ _ _ = true =>
      unfold tiers_exhausted, no_split, range_tokens; cbv -[scan_passes];
      operands_pass
  | |- no_split _ _ _ _ = true =>
      unfold no_split, range_tokens; cbv -[scan_passes]; operands_pass
  | |- _ <> _ => vm_compute; discriminate
  | |- _ = _ => reflexivity
  | |- _ => simpl; unfold COMMON_PRECEDENCE_GROUPS; lia
  end.

(** [a - b - c] on [1, 6): the rightmost [-] is the root and [a - b] its
    left operand. *)
Lemma subtraction_chain (fuel : nat) :
  (6 <= fuel)%nat ->
  psub fuel
    {| tokenv := [pre; a; "-"; b; "-"; c]; curr_line := l; token := t0;
       token_index := ti; expr_start := es; start := 1; end_ := 6;
       op_group_index := 0; paren_matches := table; ns := names |} =
  (left <- (la <- value a ;;
            lb <- value b ;;
            t <- expr_type_of lb ;;
            Return (binary_operation t la lb sub_assembly)) ;;
   right <- value c ;;
   t <- expr_type_of right ;;
   Return (binary_operation t left right sub_assembly)).
Proof.
  intros Hfuel.
  destruct fuel as [|[|[|fuel]]]; try lia.
  rewrite (parse_sub_expression_binary _ _ _ _ 1 4 "-" sub_parser_ptr sub_assembly)
    by range_condition.
  rewrite (parse_sub_expression_binary _ _ _ _ 1 2 "-" sub_parser_ptr sub_assembly)
    by range_condition.
  rewrite (parse_sub_expression_single _ _ _ _ a) by range_condition.
  rewrite (parse_sub_expression_single _ _ _ _ b) by range_condition.
  rewrite (parse_sub_expression_single _ _ _ _ c) by range_condition.
  reflexivity.
Qed.

(** [a + b * c] on [1, 6): [+] is the root and [b * c] its right operand. *)
Lemma sum_of_product (fuel : nat) :
  (6 <= fuel)%nat ->
  psub fuel
    {| tokenv := [pre; a; "+"; b; "*"; c]; curr_line := l; token := t0;
       token_index := ti; expr_start := es; start := 1; end_ := 6;
       op_group_index := 0; paren_matches := table; ns := names |} =
  (left <- value a ;;
   right <- (lb <- value b ;;
             lc <- value c ;;
             t <- expr_type_of lc ;;
             Return (binary_operation t lb lc mul_assembly)) ;;
   t <- expr_type_of right ;;
   Return (binary_operation t left right add_assembly)).
Proof.
  intros Hfuel.
  destruct fuel as [|[|[|fuel]]]; try lia.
  rewrite (parse_sub_expression_binary _ _ _ _ 1 2 "+" add_parser_ptr add_assembly)
    by range_condition.
  rewrite (parse_sub_expression_single _ _ _ _ a) by range_condition.
  rewrite (parse_sub_expression_binary _ _ _ _ 2 4 "*" mul_parser_ptr mul_assembly)
    by range_condition.
  rewrite (parse_sub_expression_single _ _ _ _ b) by range_condition.
  rewrite (parse_sub_expression_single _ _ _ _ c) by range_condition.
  reflexivity.
Qed.

End Shapes.

(** ** Ranges without a split *)

Section NoSplit.

Context {namespace : Type}.
Variable get_literal_type : string -> option type.
Variable var_lookup : @namespace -> string -> ast_node.

Abbreviation parser := (@expression_parser namespace).
Abbreviation psub := (parse_sub_expression get_literal_type var_lookup).

(** X20. On a range of several tokens that starts at index 1 or later, fails the
    strip test and has no split in any tier from the current one upwards,
    [parse_sub_expression] returns [NULL]; no error is raised. *)
Lemma parse_sub_expression_null (fuel : nat) (p : parser) :
  0 <= op_group_index p <= COMMON_PRECEDENCE_GROUPS ->
  in_tokens (tokenv p) (start p) (end_ p) = true ->
  SizeT.add (start p) 1 <> end_ p ->
  strip_test_fails (tokenv p) (start p) (end_ p) = true ->
  1 <= start p < end_ p ->
  tiers_exhausted (op_group_index p) COMMON_PRECEDENCE_GROUPS
    (tokenv p) (start p) (end_ p) = true ->
  (Z.to_nat (end_ p - start p) <= fuel)%nat ->
  psub (S fuel) p = Return NULL.
Proof.
  intros Hg Hin Hne Hfail Hi Hex Hfuel.
  simpl. rewrite body_scans by assumption.
  apply (scan_groups_none var_lookup (psub fuel)
           (Z.to_nat (COMMON_PRECEDENCE_GROUPS - op_group_index p)));
    auto; lia.
Qed.

(** X21. On a range of several tokens that starts at index 0, fails the strip
    test and has no split in the current tier, the scan of that tier
    decrements [token_index] from 0 to [SIZE_MAX], the loop condition
    [token_index >= start] still holds, and the token vector is read at
    index [SIZE_MAX]. *)
Lemma parse_sub_expression_wraps (fuel : nat) (p : parser) :
  0 <= op_group_index p < COMMON_PRECEDENCE_GROUPS ->
  in_tokens (tokenv p) (start p) (end_ p) = true ->
  start p = 0 -> 1 < end_ p ->
  strip_test_fails (tokenv p) (start p) (end_ p) = true ->
  no_split (op_group_index p) (tokenv p) (start p) (end_ p) = true ->
  (Z.to_nat (end_ p) + 1 <= fuel)%nat ->
  psub (S fuel) p = undefined (token_read SizeT.max).
Proof.
  intros Hg Hin Hz Hend Hfail Hs Hfuel.
  simpl. rewrite body_scans; try assumption.
  - apply scan_groups_wrap; auto. lia.
  - rewrite Hz. change (SizeT.add 0 1) with 1. lia.
Qed.

(** When the strip test holds, the parse is the parse of the range without
    its first and last token, in the same tier. *)
Lemma parse_sub_expression_strips (fuel : nat) (p : parser) :
  SizeT.add (start p) 1 <> end_ p ->
  strip_test_holds (tokenv p) (start p) (end_ p) = true ->
  psub (S fuel) p =
  psub fuel (set_end (set_start p (SizeT.add (start p) 1)) (SizeT.sub (end_ p) 1)).
Proof. intros Hne Hholds. simpl. apply body_strips; assumption. Qed.

End NoSplit.

(** ** The claims at concrete inputs *)

Ltac with_more_fuel :=
  intros;
  first
    [ apply parse_sub_expression_stable; [vm_compute; reflexivity|discriminate]
    | apply parse_expression_stable; [vm_compute; reflexivity|discriminate] ].

(** Witness of C9: a literal, a declared variable and an undeclared name,
    each on its own range of one token. *)
Lemma single_token_resolution_witness :
  (SizeT.add 0 1 = 1 /\ token_at ["5"] 0 = Some "5" /\
   Demo.parse_sub 1 (Demo.parser_with_table [] ["5"] 0 1) =
   Return (literal_node Demo.int_type "5")) /\
  (SizeT.add 1 1 = 2 /\ token_at ["5"; "a"] 1 = Some "a" /\
   Demo.parse_sub 1 (Demo.parser_with_table [] ["5"; "a"] 1 2) =
   Return (var_node Demo.int_type "a")) /\
  (SizeT.add 0 1 = 1 /\ token_at ["zz"] 0 = Some "zz" /\
   Demo.parse_sub 1 (Demo.parser_with_table [] ["zz"] 0 1) =
   compiler_error "Invalid Value" 7).
Proof.
  split; [|split]; (split; [reflexivity|split; [reflexivity|]]).
  - exact (single_token_resolution Demo.get_literal_type Demo.var_lookup 0
             (Demo.parser_with_table [] ["5"] 0 1) "5" eq_refl eq_refl).
  - exact (single_token_resolution Demo.get_literal_type Demo.var_lookup 0
             (Demo.parser_with_table [] ["5"; "a"] 1 2) "a" eq_refl eq_refl).
  - exact (single_token_resolution Demo.get_literal_type Demo.var_lookup 0
             (Demo.parser_with_table [] ["zz"] 0 1) "zz" eq_refl eq_refl).
Defined.

(** Witness of C8: the statement [x = a + b] from index 0, where the [=]
    is at index 1. *)
Lemma assignment_shape_witness :
  let tokens := ["x"; "="; "a"; "+"; "b"] in
  (in_tokens tokens 0 5 = true /\ SizeT.add 0 1 <> 5 /\
   token_at tokens 0 = Some "x" /\
   streq "x" PAREN_OPEN = false /\ streq "x" PAREN_CLOSE = false /\
   0 <= 1 < 5 /\ token_at tokens 1 = Some ASSIGNMENT /\
   no_split 0 tokens (1 + 1) 5 = true /\ (Z.to_nat (5 - 0) <= 5)%nat) /\
  Demo.parse 6 [] tokens 0 5 =
  Return
    (binary_operation Demo.int_type (var_node Demo.int_type "x")
       (binary_operation Demo.int_type (var_node Demo.int_type "a")
          (var_node Demo.int_type "b") add_assembly)
       assignment_assembly).
Proof.
  cbv zeta.
  assert (H1 : SizeT.add 0 1 <> 5) by (vm_compute; discriminate).
  assert (H2 : 0 <= 1 < 5) by lia.
  assert (H3 : (Z.to_nat (5 - 0) <= 5)%nat) by (simpl; lia).
  split.
  - repeat split;
      first [reflexivity | assumption | solve [simpl; lia] | exact H1].
  - exact (proj1 (assignment_shape Demo.get_literal_type Demo.var_lookup 5
                    Demo.stack_parser [] ["x"; "="; "a"; "+"; "b"] 7 0 5
                    Demo.names 1 "x"
                    eq_refl H1 eq_refl eq_refl eq_refl H2 eq_refl eq_refl H3)).
Defined.

(** The split of [a + b * c] on [1, 6): the [+] is found at index 2 in
    tier 1, after tier 0 found nothing, and both operand parsers hold
    tier 1. *)
Lemma binary_split_continues_tier_witness :
  let p := Demo.parser_with_table [] ["q"; "a"; "+"; "b"; "*"; "c"] 1 6 in
  (0 <= op_group_index p <= 1 /\ 1 < COMMON_PRECEDENCE_GROUPS /\
   in_tokens (tokenv p) (start p) (end_ p) = true /\
   SizeT.add (start p) 1 <> end_ p /\
   strip_test_fails (tokenv p) (start p) (end_ p) = true /\
   start p <= 2 < end_ p /\
   (op_group_index p < 1 -> 1 <= start p) /\
   tiers_exhausted (op_group_index p) 1 (tokenv p) (start p) (end_ p) = true /\
   no_split 1 (tokenv p) (2 + 1) (end_ p) = true /\
   token_at (tokenv p) 2 = Some "+" /\
   tier_operator 1 "+" = Some add_parser_ptr /\
   binary_generator add_parser_ptr = Some add_assembly /\
   (Z.to_nat (end_ p - start p) <= 5)%nat) /\
  Demo.parse_sub 6 p =
  Return
    (binary_operation Demo.int_type (var_node Demo.int_type "a")
       (binary_operation Demo.int_type (var_node Demo.int_type "b")
          (var_node Demo.int_type "c") mul_assembly)
       add_assembly) /\
  op_group_index (set_end (at_index (set_op_group_index p 1) 2 "+") 2) = 1 /\
  op_group_index (set_start (at_index (set_op_group_index p 1) 2 "+") (2 + 1)) = 1.
Proof.
  cbv zeta.
  assert (H1 : 0 <= 0 <= 1) by lia.
  assert (H2 : 1 < COMMON_PRECEDENCE_GROUPS) by reflexivity.
  assert (H3 : SizeT.add 1 1 <> 6) by (vm_compute; discriminate).
  assert (H4 : 1 <= 2 < 6) by lia.
  assert (H5 : 0 < 1 -> 1 <= 1) by lia.
  assert (H6 : (Z.to_nat (6 - 1) <= 5)%nat) by (simpl; lia).
  pose proof (binary_split_continues_tier Demo.get_literal_type Demo.var_lookup 5
                (Demo.parser_with_table [] ["q"; "a"; "+"; "b"; "*"; "c"] 1 6)
                1 2 "+" add_parser_ptr add_assembly
                H1 H2 eq_refl H3 eq_refl H4 H5 eq_refl eq_refl eq_refl eq_refl
                eq_refl H6) as [Hparse [[_ [_ Hleft]] [_ [_ Hright]]]].
  split.
  - repeat split;
      first [reflexivity | assumption | solve [simpl; lia] | exact H3].
  - split; [exact Hparse|]. split; [exact Hleft|exact Hright].
Defined.

(** C1. On [( a )] the loop compares the first token of the range, [(], at
    each of the three positions: it pushes three indices, reports
    imbalance and records nothing for the [)] at index 2. On [a ( b )] it
    compares [a] three times and records nothing either. The matcher that
    compares the token at the scan index accepts both ranges and records
    the opening index for each [)]. *)
Theorem match_parens_compares_first_token :
  (forall matches,
     match_parens ["("; "a"; ")"] 0 3 matches = Return (false, matches)) /\
  match_parens_spec ["("; "a"; ")"] 0 3 [9; 9; 9] = Return (true, [9; 9; 0]) /\
  (forall matches,
     match_parens ["a"; "("; "b"; ")"] 0 4 matches = Return (true, matches)) /\
  match_parens_spec ["a"; "("; "b"; ")"] 0 4 [9; 9; 9; 9] =
  Return (true, [9; 9; 9; 1]).
Proof. repeat split. Qed.

(** C2. On [q ( a ) ;] the range [1, 4) is [( a )]: its first token is [(]
    and its last token, at index 3, is [)]. The strip test reads index 4,
    finds [;], and the range goes to the tier scan, which returns [NULL];
    the interior [2, 3) alone parses to the variable [a]. On [x = ( a )]
    the value range [2, 5) ends the token vector and the strip test reads
    index 5, outside it. *)
Theorem strip_test_reads_index_end :
  token_at ["q"; "("; "a"; ")"; ";"] 1 = Some PAREN_OPEN /\
  token_at ["q"; "("; "a"; ")"; ";"] (4 - 1) = Some PAREN_CLOSE /\
  strip_test_holds ["q"; "("; "a"; ")"; ";"] 1 4 = false /\
  (forall extra,
     Demo.parse_sub (2 + extra)
       (Demo.parser_with_table [0; 0; 1] ["q"; "("; "a"; ")"; ";"] 1 4) =
     Return NULL) /\
  (forall extra,
     Demo.parse_sub (1 + extra)
       (Demo.parser_with_table [0; 0; 1] ["q"; "("; "a"; ")"; ";"] 2 3) =
     Return (var_node Demo.int_type "a")) /\
  (forall extra,
     Demo.parse_with_table (3 + extra) [0; 0; 0; 0; 2]
       ["x"; "="; "("; "a"; ")"] 0 5 =
     undefined (token_read 5)).
Proof.
  do 3 (split; [reflexivity|]).
  unfold Demo.parse_sub, Demo.parse_with_table.
  repeat split; with_more_fuel.
Qed.

(** What keeping the tier costs, shown on [a * ( b + c )] in a state the
    entry point does not set up: [paren_matches] is given the entry that
    sends the [)] at index 7 to the [(] at index 3, and a [)] follows the
    range, so that neither the table nor the strip test stands in the way.
    At the split at [*] in tier 2 the right operand [( b + c )] is parsed
    from tier 2, is stripped, finds no operator of tier 2 in [b + c] and
    returns [NULL], whose type the node then reads; with operand parsers
    that start again from tier 0 the same split gives the tree of
    [a * (b + c)]. *)
Example product_with_parenthesised_sum :
  let tokens := ["q"; "a"; "*"; "("; "b"; "+"; "c"; ")"; ")"] in
  let p :=
    at_index
      (set_op_group_index (Demo.parser_with_table [0; 0; 0; 0; 0; 0; 3] tokens 1 8) 2)
      2 "*" in
  binary_operation_parser (Demo.parse_sub 5) p mul_assembly =
  undefined null_dereference /\
  binary_operation_parser_restarting (Demo.parse_sub 5) p mul_assembly =
  Return
    (binary_operation Demo.int_type (var_node Demo.int_type "a")
       (binary_operation Demo.int_type (var_node Demo.int_type "b")
          (var_node Demo.int_type "c") add_assembly)
       mul_assembly) /\
  (forall extra,
     Demo.parse_sub (6 + extra)
       (Demo.parser_with_table [0; 0; 0; 0; 0; 0; 3] tokens 1 8) =
     undefined null_dereference).
Proof.
  cbv zeta. split; [reflexivity|]. split; [reflexivity|].
  unfold Demo.parse_sub. with_more_fuel.
Qed.

(** C4. [a b] on [1, 3) has several tokens, is not parenthesised and has no
    operator: the parse returns [NULL] and raises no error. *)
Theorem no_operator_returns_null :
  forall extra matches,
    Demo.parse (3 + extra) matches ["q"; "a"; "b"] 1 3 = Return NULL.
Proof. unfold Demo.parse. with_more_fuel. Qed.

(** C5. [a + b )] passes [match_parens]; the parse goes on to the tier
    scan, which reads the uninitialised table at the [)]. The balanced
    [( a )] is rejected with "Mismatched Parentheses", as is [( a + b]. *)
Theorem mismatch_depends_on_first_token :
  (forall matches,
     match_parens ["a"; "+"; "b"; ")"] 0 4 matches = Return (true, matches)) /\
  (forall extra matches,
     Demo.parse (2 + extra) matches ["a"; "+"; "b"; ")"] 0 4 =
     undefined (match_read 3)) /\
  (forall fuel matches,
     Demo.parse fuel matches ["("; "a"; ")"] 0 3 =
     compiler_error "Mismatched Parentheses" 7) /\
  (forall fuel matches,
     Demo.parse fuel matches ["("; "a"; "+"; "b"] 0 4 =
     compiler_error "Mismatched Parentheses" 7).
Proof.
  split; [reflexivity|]. split; [|split; reflexivity].
  unfold Demo.parse. with_more_fuel.
Qed.

(** C6. [a - b - c] from index 0: tier 0 has no operator in the range, its
    scan passes index 0 and reads the token vector at [SIZE_MAX]; no tree is
    built. The parenthesised [( a - b ) - c] is rejected by
    [match_parens]. *)
Theorem subtraction_chain_at_index_0 :
  (forall extra matches,
     Demo.parse (7 + extra) matches ["a"; "-"; "b"; "-"; "c"] 0 5 =
     undefined (token_read SizeT.max)) /\
  (forall fuel matches,
     Demo.parse fuel matches ["("; "a"; "-"; "b"; ")"; "-"; "c"] 0 7 =
     compiler_error "Mismatched Parentheses" 7).
Proof.
  split; [|reflexivity].
  unfold Demo.parse. with_more_fuel.
Qed.

(** C7. [a + b * c] from index 0: tier 0 has no operator in the range, its
    scan passes index 0 and reads the token vector at [SIZE_MAX]; no tree is
    built. *)
Theorem sum_of_product_at_index_0 :
  forall extra matches,
    Demo.parse (7 + extra) matches ["a"; "+"; "b"; "*"; "c"] 0 5 =
    undefined (token_read SizeT.max).
Proof. unfold Demo.parse. with_more_fuel. Qed.

(** C10. With [start = 0] the decrement of [token_index] at 0 gives
    [SIZE_MAX], for which [token_index >= start] holds: on [a b] from
    index 0 the scan of tier 0 does not leave the loop but reads the token
    vector at index [SIZE_MAX]. *)
Theorem tier_scan_wraps_at_index_0 :
  SizeT.sub 0 1 = SizeT.max /\
  (0 <=? SizeT.max) = true /\
  (forall extra matches,
     Demo.parse (4 + extra) matches ["a"; "b"] 0 2 =
     undefined (token_read SizeT.max)).
Proof.
  split; [reflexivity|]. split; [reflexivity|].
  unfold Demo.parse. with_more_fuel.
Qed.

(** The assignment examples of the specification. *)
Example assignment_of_sum :
  forall extra matches,
    Demo.parse (6 + extra) matches ["x"; "="; "a"; "+"; "b"] 0 5 =
    Return
      (binary_operation Demo.int_type (var_node Demo.int_type "x")
         (binary_operation Demo.int_type (var_node Demo.int_type "a")
            (var_node Demo.int_type "b") add_assembly)
         assignment_assembly).
Proof. unfold Demo.parse. with_more_fuel. Qed.

Example assignment_to_sum :
  forall extra matches,
    Demo.parse (6 + extra) matches ["x"; "+"; "y"; "="; "a"] 0 5 =
    compiler_error "Invalid Assignment" 7.
Proof. unfold Demo.parse. with_more_fuel. Qed.

(** * Source files *)

Module SourceCodeFilesFacts.

Import SourceCodeFiles.

(** ** Strings *)

Lemma string_take_drop (n : nat) :
  forall s : string, (string_take n s ++ string_drop n s)%string = s.
Proof.
  induction n as [|n IH]; intros s; [reflexivity|].
  destruct s as [|c s]; [reflexivity|]. simpl. rewrite IH. reflexivity.
Qed.

Lemma string_take_length (n : nat) :
  forall s : string, (n <= String.length s)%nat ->
  String.length (string_take n s) = n.
Proof.
  induction n as [|n IH]; intros s H; [reflexivity|].
  destruct s as [|c s]; simpl in *; [lia|]. rewrite IH; lia.
Qed.

Lemma string_take_length_le (n : nat) :
  forall s : string, (String.length (string_take n s) <= n)%nat.
Proof.
  induction n as [|n IH]; intros s; [simpl; lia|].
  destruct s as [|c s]; simpl; [lia|]. specialize (IH s). lia.
Qed.

Lemma string_take_short (n : nat) :
  forall s : string, (String.length s < n)%nat ->
  String.length (string_take n s) = String.length s.
Proof.
  induction n as [|n IH]; intros s H; [lia|].
  destruct s as [|c s]; simpl in *; [reflexivity|]. rewrite IH; lia.
Qed.

Lemma string_drop_length (n : nat) :
  forall s : string, (n <= String.length s)%nat ->
  String.length (string_drop n s) = (String.length s - n)%nat.
Proof.
  induction n as [|n IH]; intros s H; [simpl; lia|].
  destruct s as [|c s]; simpl in *; [lia|]. apply IH. lia.
Qed.

Lemma string_app_length (s1 s2 : string) :
  String.length (s1 ++ s2)%string = (String.length s1 + String.length s2)%nat.
Proof. induction s1 as [|c s1 IH]; simpl; [reflexivity|]. rewrite IH. reflexivity. Qed.

Lemma string_drop_app (s1 s2 : string) :
  string_drop (String.length s1) (s1 ++ s2)%string = s2.
Proof. induction s1 as [|c s1 IH]; simpl; [reflexivity|exact IH]. Qed.

(** ** Logs *)

Lemma result_then {A B : Type} (c : io A) (k : A -> io B) :
  result (then_ c k) = result (k (result c)).
Proof.
  unfold then_, result. destruct c as [a log1]. simpl.
  destruct (k a). reflexivity.
Qed.

Lemma calls_then {A B : Type} (c : io A) (k : A -> io B) :
  calls (then_ c k) = (calls c ++ calls (k (result c)))%list.
Proof.
  unfold then_, calls, result. destruct c as [a log1]. simpl.
  destruct (k a). reflexivity.
Qed.

Lemma streams_closed_app (l1 l2 : list call) :
  streams_closed (l1 ++ l2) = (streams_closed l1 ++ streams_closed l2)%list.
Proof. apply flat_map_app. Qed.

Lemma diagnostics_app (l1 l2 : list call) :
  diagnostics (l1 ++ l2) = (diagnostics l1 ++ diagnostics l2)%list.
Proof. apply flat_map_app. Qed.

Lemma files_requested_app (l1 l2 : list call) :
  files_requested (l1 ++ l2) = (files_requested l1 ++ files_requested l2)%list.
Proof. apply flat_map_app. Qed.

Lemma buffers_released_app (l1 l2 : list call) :
  buffers_released (l1 ++ l2) = (buffers_released l1 + buffers_released l2)%nat.
Proof. unfold buffers_released. rewrite map_app. apply list_sum_app. Qed.

(** ** File names and single files *)

Section FileFacts.

Variable MIN_FILENAME_LEN : Z.
Variable FILE_EXT : string.
Variable fopen : string -> option FILE.
Variable malloc_succeeds : Z -> bool.

Abbreviation invalid := (invalid_file_name MIN_FILENAME_LEN FILE_EXT).
Abbreviation read_file :=
  (read_source_file MIN_FILENAME_LEN FILE_EXT fopen malloc_succeeds).
Abbreviation read_loop :=
  (read_source_code_loop MIN_FILENAME_LEN FILE_EXT fopen malloc_succeeds).
Abbreviation read_code :=
  (read_source_code MIN_FILENAME_LEN FILE_EXT fopen malloc_succeeds).

Ltac use_answers :=
  repeat match goal with
         | H : ?x = _ |- context [?x] => rewrite H
         end.

(** The paths through [read_source_file], by the answers of the library. *)
Ltac file_cases file_name :=
  unfold read_source_file, open_source_file, get_file_size;
  destruct (invalid_file_name MIN_FILENAME_LEN FILE_EXT file_name) eqn:Einvalid;
  [|destruct (fopen file_name) as [file|] eqn:Eopen;
    [destruct (fseek_end_result file =? 0) eqn:Eseek;
     [destruct (ftell_result file <? 0) eqn:Etell;
      [|destruct (malloc_succeeds (ftell_result file + 1)) eqn:Emalloc;
        [destruct (strlen (string_take (Z.to_nat (ftell_result file))
                             (stream file)) =? ftell_result file) eqn:Eread|]]|]|]];
  repeat (cbn -[String.append string_take Z.add]; use_answers).

Lemma streams_opened_app (l1 l2 : list call) :
  streams_opened fopen (l1 ++ l2) =
  (streams_opened fopen l1 ++ streams_opened fopen l2)%list.
Proof. apply flat_map_app. Qed.

Lemma buffers_allocated_app (l1 l2 : list call) :
  buffers_allocated malloc_succeeds (l1 ++ l2) =
  (buffers_allocated malloc_succeeds l1 + buffers_allocated malloc_succeeds l2)%nat.
Proof. unfold buffers_allocated. rewrite filter_app. apply length_app. Qed.

(** X1. With [MIN_FILENAME_LEN >= 1] and an extension of
    [MIN_FILENAME_LEN - 1] characters, the names [open_source_file] lets
    through are exactly the extension preceded by at least one
    character. *)
Theorem valid_file_names (file_name : string) :
  1 <= MIN_FILENAME_LEN ->
  strlen FILE_EXT = MIN_FILENAME_LEN - 1 ->
  invalid file_name = false <->
  exists stem : string,
    stem <> EmptyString /\ file_name = (stem ++ FILE_EXT)%string.
Proof.
  intros Hmin Hext. unfold invalid_file_name, strlen in *. split.
  - destruct (Z.of_nat (String.length file_name) <? MIN_FILENAME_LEN) eqn:E;
      [discriminate|].
    intros H. apply negb_false_iff in H. apply String.eqb_eq in H.
    set (k := Z.to_nat (Z.of_nat (String.length file_name) - MIN_FILENAME_LEN + 1)) in *.
    exists (string_take k file_name). split.
    + intros Hempty.
      assert (Hk : String.length (string_take k file_name) = k)
        by (apply string_take_length; lia).
      rewrite Hempty in Hk. simpl in Hk. lia.
    + rewrite <- H. symmetry. apply string_take_drop.
  - intros [stem [Hstem ->]]. rewrite string_app_length.
    assert (Hlen : (1 <= String.length stem)%nat).
    { destruct stem; [congruence|simpl; lia]. }
    destruct (Z.of_nat (String.length stem + String.length FILE_EXT) <?
              MIN_FILENAME_LEN) eqn:E; [exfalso; apply Z.ltb_lt in E; lia|].
    replace (Z.to_nat (Z.of_nat (String.length stem + String.length FILE_EXT) -
                       MIN_FILENAME_LEN + 1))
      with (String.length stem) by lia.
    rewrite string_drop_app, String.eqb_refl. reflexivity.
Qed.

(** X2. If the extension does not have [MIN_FILENAME_LEN - 1] characters,
    [open_source_file] lets no name through: the suffix it compares with
    the extension has another length. *)
Theorem extension_length_mismatch (file_name : string) :
  1 <= MIN_FILENAME_LEN ->
  strlen FILE_EXT <> MIN_FILENAME_LEN - 1 ->
  invalid file_name = true.
Proof.
  intros Hmin Hext. unfold invalid_file_name, strlen in *.
  destruct (Z.of_nat (String.length file_name) <? MIN_FILENAME_LEN) eqn:E;
    [reflexivity|].
  apply negb_true_iff. apply String.eqb_neq. intros H.
  apply (f_equal String.length) in H.
  rewrite string_drop_length in H by lia. lia.
Qed.

(** X3. [read_source_file] returns a buffer exactly when the name is let
    through, [fopen] gives a stream, [fseek] returns 0, [ftell] is not
    negative, [malloc] succeeds and the stream delivers as many bytes as
    [ftell] reported; the buffer then holds exactly those first bytes. *)
Theorem read_source_file_success (file_name buffer : string) :
  result (read_file file_name) = Some buffer <->
  invalid file_name = false /\
  exists file : FILE,
    fopen file_name = Some file /\ fseek_end_result file = 0 /\
    0 <= ftell_result file /\
    malloc_succeeds (ftell_result file + 1) = true /\
    ftell_result file <= strlen (stream file) /\
    buffer = string_take (Z.to_nat (ftell_result file)) (stream file).
Proof.
  split.
  - file_cases file_name; try discriminate.
    intros H. injection H as <-. split; [reflexivity|].
    exists file. repeat split; try assumption; try lia.
    unfold strlen in *. apply Z.eqb_eq in Eread.
    destruct (Z.lt_ge_cases (Z.of_nat (String.length (stream file)))
                (ftell_result file)) as [Hshort|Hlong]; [|lia].
    rewrite string_take_short in Eread by lia. lia.
  - intros [Hvalid [file (Hopen & Hseek & Htell & Hmalloc & Hlen & ->)]].
    assert (Hread : strlen (string_take (Z.to_nat (ftell_result file))
                              (stream file)) = ftell_result file).
    { unfold strlen in *. rewrite string_take_length; lia. }
    unfold read_source_file, open_source_file, get_file_size.
    rewrite Hvalid. cbn -[String.append string_take Z.add].
    rewrite Hopen. cbn -[String.append string_take Z.add].
    rewrite Hseek. cbn -[String.append string_take Z.add].
    destruct (ftell_result file <? 0) eqn:E; [lia|].
    cbn -[String.append string_take Z.add]. rewrite Hmalloc.
    cbn -[String.append string_take Z.add]. rewrite Hread, Z.eqb_refl.
    reflexivity.
Qed.

(** X4. A call of [read_source_file] that fails writes exactly one line to
    [stderr]; a call that succeeds writes none. *)
Theorem one_diagnostic_per_failure (file_name : string) :
  List.length (diagnostics (calls (read_file file_name))) =
  match result (read_file file_name) with
  | Some _ => 0%nat
  | None => 1%nat
  end.
Proof. file_cases file_name; reflexivity. Qed.

Lemma read_source_file_streams (file_name : string) :
  streams_closed (calls (read_file file_name)) =
  streams_opened fopen (calls (read_file file_name)).
Proof. file_cases file_name; reflexivity. Qed.

Lemma read_source_file_buffers (file_name : string) :
  buffers_allocated malloc_succeeds (calls (read_file file_name)) =
  (buffers_released (calls (read_file file_name)) +
   match result (read_file file_name) with
   | Some _ => 1
   | None => 0
   end)%nat.
Proof. file_cases file_name; reflexivity. Qed.

(** ** Lists of files *)

Lemma read_source_code_loop_cons (file_name : string) (rest acc : list string) :
  read_loop (file_name :: rest) acc =
  then_ (read_file file_name)
    (fun content =>
       match content with
       | None => then_ (did (free_vec_and_elements_call acc)) (fun _ => ret None)
       | Some c => read_loop rest (acc ++ [c])%list
       end).
Proof. reflexivity. Qed.

Lemma read_source_code_loop_result (names : list string) :
  forall acc : list string,
  result (read_loop names acc) =
  option_map (app acc)
    (all_contents (fun n => result (read_file n)) names).
Proof.
  induction names as [|n names IH]; intros acc.
  - simpl. rewrite app_nil_r. reflexivity.
  - rewrite read_source_code_loop_cons, result_then. simpl all_contents.
    destruct (result (read_file n)) as [c|]; [|reflexivity].
    rewrite IH.
    destruct (all_contents (fun n0 => result (read_file n0)) names) as [cs|];
      simpl; [|reflexivity].
    rewrite <- app_assoc. reflexivity.
Qed.

(** X5. [read_source_code] returns the contents of the files in the order
    of the names when every file can be read, and [NULL] as soon as one
    cannot. *)
Theorem read_source_code_contents (names : list string) :
  result (read_code names) =
  all_contents (fun n => result (read_file n)) names.
Proof.
  unfold read_source_code. rewrite read_source_code_loop_result.
  destruct (all_contents _ names); reflexivity.
Qed.

Lemma read_source_code_loop_streams (names : list string) :
  forall acc : list string,
  streams_closed (calls (read_loop names acc)) =
  streams_opened fopen (calls (read_loop names acc)).
Proof.
  induction names as [|n names IH]; intros acc; [reflexivity|].
  rewrite read_source_code_loop_cons, calls_then.
  rewrite streams_closed_app, streams_opened_app, read_source_file_streams.
  f_equal. destruct (result (read_file n)); [apply IH|reflexivity].
Qed.

(** X6. In a run of [read_source_code] every stream that [fopen] returned
    is passed to [fclose] exactly once, in the order of opening, whether
    the run succeeds or fails. *)
Theorem every_stream_closed (names : list string) :
  streams_closed (calls (read_code names)) =
  streams_opened fopen (calls (read_code names)).
Proof. apply read_source_code_loop_streams. Qed.

Lemma read_source_code_loop_buffers (names : list string) :
  forall acc : list string,
  (buffers_allocated malloc_succeeds (calls (read_loop names acc)) +
   List.length acc =
   buffers_released (calls (read_loop names acc)) +
   match result (read_loop names acc) with
   | Some contents => List.length contents
   | None => 0
   end)%nat.
Proof.
  induction names as [|n names IH]; intros acc; [reflexivity|].
  rewrite read_source_code_loop_cons, calls_then, result_then.
  rewrite buffers_allocated_app, buffers_released_app.
  pose proof (read_source_file_buffers n) as Hfile.
  destruct (result (read_file n)) as [c|].
  - specialize (IH (acc ++ [c])%list). rewrite length_app in IH.
    simpl in IH. lia.
  - cbn [calls snd result fst then_ did ret app buffers_allocated filter
           List.length].
    change (buffers_released [free_vec_and_elements_call acc])
      with (List.length acc + 0)%nat.
    lia.
Qed.

(** X7. In a run of [read_source_code] every buffer that [malloc] gave is
    either an element of the vector returned, or was released by [free]
    or by [free_vec_and_elements]: after a failure none is left. *)
Theorem every_buffer_accounted (names : list string) :
  buffers_allocated malloc_succeeds (calls (read_code names)) =
  (buffers_released (calls (read_code names)) +
   match result (read_code names) with
   | Some contents => List.length contents
   | None => 0
   end)%nat.
Proof.
  pose proof (read_source_code_loop_buffers names []) as H.
  simpl List.length in H. unfold read_source_code. lia.
Qed.

Lemma read_source_code_loop_stops (good : list string) :
  forall (bad : string) (rest acc : list string),
  result (read_file bad) = None ->
  read_loop (good ++ bad :: rest) acc = read_loop (good ++ [bad]) acc.
Proof.
  induction good as [|g good IH]; intros bad rest acc Hbad.
  - cbn [app]. rewrite !read_source_code_loop_cons.
    unfold then_ at 1 3. unfold result in Hbad.
    destruct (read_file bad) as [content log]. simpl in Hbad. subst content.
    reflexivity.
  - cbn [app]. rewrite !read_source_code_loop_cons.
    unfold then_ at 1 3.
    destruct (read_file g) as [[c|] log]; [|reflexivity].
    rewrite (IH bad rest _ Hbad). reflexivity.
Qed.

(** X8. The names that follow the first file that cannot be read are never
    looked at: the run makes the same library calls, and returns the same,
    as if the list ended with that file. *)
Theorem stops_at_first_failure (good : list string) (bad : string)
  (rest : list string) :
  result (read_file bad) = None ->
  read_code (good ++ bad :: rest) = read_code (good ++ [bad]) /\
  result (read_code (good ++ bad :: rest)) = None.
Proof.
  intros Hbad. split.
  - apply read_source_code_loop_stops. exact Hbad.
  - unfold read_source_code. rewrite read_source_code_loop_result.
    cbn [app].
    assert (Hnone : all_contents (fun n => result (read_file n))
                      (good ++ bad :: rest) = None);
      [|rewrite Hnone; reflexivity].
    induction good as [|g good IH]; simpl.
    + rewrite Hbad. reflexivity.
    + destruct (result (read_file g)); [|reflexivity].
      rewrite IH. reflexivity.
Qed.

End FileFacts.

End SourceCodeFilesFacts.

(** * What every parse keeps *)

Lemma outcome_within_bind {A B : Type} (P : A -> Prop) (Q : B -> Prop)
  (l : line) (c : outcome A) (k : A -> outcome B) :
  outcome_within P l c ->
  (forall a, P a -> outcome_within Q l (k a)) ->
  outcome_within Q l (bind c k).
Proof. destruct c; simpl; auto. Qed.

Lemma vec_get_within (l : line) (tokens : list string) (i : Z) :
  outcome_within (fun _ => True) l (vec_get tokens i).
Proof. unfold vec_get. destruct (token_at tokens i); exact I. Qed.

Lemma array_get_within (l : line) (a : list Z) (i : Z) :
  outcome_within (fun _ => True) l (array_get a i).
Proof.
  unfold array_get.
  destruct (if (0 <=? i) && (i <? vec_len a) then nth_error a (Z.to_nat i)
            else None); exact I.
Qed.

Lemma expr_type_of_within (l : line) (n : ast_node) :
  outcome_within (fun t => expr_type_of n = Return t) l (expr_type_of n).
Proof. destruct n; simpl; auto. Qed.

Lemma expr_type_has_type (n : ast_node) (t : type) :
  expr_type_of n = Return t -> has_type n t = true.
Proof.
  destruct n; simpl; try discriminate; intros H; injection H as <-;
    apply String.eqb_refl.
Qed.

Section Within.

Context {namespace : Type}.
Variable get_literal_type : string -> option type.
Variable var_lookup : @namespace -> string -> ast_node.

Abbreviation parser := (@expression_parser namespace).
Abbreviation psub := (parse_sub_expression get_literal_type var_lookup).

(** A property of nodes that the leaves, [NULL] and the namespace's nodes
    have, and that an operation node inherits from its operands. *)
Variable P : ast_node -> Prop.
Hypothesis P_null : P NULL.
Hypothesis P_literal : forall t s, P (literal_node t s).
Hypothesis P_var : forall t s, P (var_node t s).
Hypothesis P_lookup : forall names tok, P (var_lookup names tok).
Hypothesis P_binary :
  forall t l r g,
    P l -> P r -> expr_type_of r = Return t -> P (binary_operation t l r g).

Section WithinBody.

Variable rec : parser -> outcome ast_node.
Hypothesis rec_within : forall q, outcome_within P (curr_line q) (rec q).

Lemma binary_operation_parser_within (p : parser) (gen : assembly_generator) :
  outcome_within P (curr_line p) (binary_operation_parser rec p gen).
Proof.
  unfold binary_operation_parser.
  apply (outcome_within_bind P); [apply (rec_within (set_end p _))|].
  intros left Hleft.
  apply (outcome_within_bind P); [apply (rec_within (set_start p _))|].
  intros right Hright.
  apply (outcome_within_bind (fun t => expr_type_of right = Return t));
    [apply expr_type_of_within|].
  intros t Ht. simpl. apply P_binary; assumption.
Qed.

Lemma assignment_parser_within (p : parser) :
  outcome_within P (curr_line p) (assignment_parser var_lookup rec p).
Proof.
  unfold assignment_parser, raise_compiler_error.
  destruct (negb _); [simpl; auto|].
  apply (outcome_within_bind (fun _ => True)); [apply vec_get_within|].
  intros tok _.
  apply (outcome_within_bind P); [apply (rec_within (set_start p _))|].
  intros value Hvalue.
  apply (outcome_within_bind (fun t => expr_type_of value = Return t));
    [apply expr_type_of_within|].
  intros t Ht. simpl. apply P_binary; auto.
Qed.

Lemma compile_operator_within (p : parser) :
  outcome_within P (curr_line p) (compile_operator var_lookup rec p).
Proof.
  rewrite compile_operator_tier.
  destruct (tier_operator _ _) as [f|]; [|exact P_null].
  destruct f; simpl; unfold mul_parser, div_parser, mod_parser, add_parser,
    sub_parser; auto using binary_operation_parser_within,
    assignment_parser_within.
Qed.

Lemma scan_tokens_within (steps : nat) :
  forall (p : parser) (l : line), curr_line p = l ->
  outcome_within
    (fun r => match r with
              | returned n => P n
              | fell_through q => curr_line q = l
              end)
    l (scan_tokens var_lookup rec steps p).
Proof.
  induction steps as [|steps IH]; intros p l Hl; rewrite scan_tokens_eq;
    destruct (start p <=? token_index p); try (simpl; auto; fail).
  apply (outcome_within_bind (fun _ => True)); [apply vec_get_within|].
  intros tok _. cbv zeta.
  destruct (streq _ _).
  - apply (outcome_within_bind (fun _ => True)); [apply array_get_within|].
    intros m _. apply IH. exact Hl.
  - apply (outcome_within_bind P).
    + rewrite <- Hl. apply (compile_operator_within (set_token p tok)).
    + intros n Hn. destruct (negb (is_null n)); [exact Hn|].
      apply IH. exact Hl.
Qed.

Lemma scan_groups_within (rounds : nat) :
  forall (steps : nat) (p : parser) (l : line), curr_line p = l ->
  outcome_within P l (scan_groups var_lookup rec steps rounds p).
Proof.
  induction rounds as [|rounds IH]; intros steps p l Hl; rewrite scan_groups_eq;
    destruct (op_group_index p <? COMMON_PRECEDENCE_GROUPS);
    try (simpl; auto; fail).
  cbv zeta.
  eapply outcome_within_bind;
    [apply (scan_tokens_within steps (set_token_index p _) l Hl)|].
  intros [n|q] Hr; [exact Hr|].
  apply IH. exact Hr.
Qed.

Lemma parse_value_within (p : parser) :
  outcome_within P (curr_line p) (parse_value get_literal_type var_lookup p).
Proof.
  unfold parse_value, raise_compiler_error.
  apply (outcome_within_bind (fun _ => True)); [apply vec_get_within|].
  intros tok _. destruct (get_literal_type tok); [apply P_literal|].
  destruct (var_lookup (ns p) tok); simpl; auto.
Qed.

Lemma parse_sub_expression_body_within (steps : nat) (p : parser) :
  outcome_within P (curr_line p)
    (parse_sub_expression_body get_literal_type var_lookup rec steps p).
Proof.
  unfold parse_sub_expression_body.
  destruct (SizeT.add (start p) 1 =? end_ p); [apply parse_value_within|].
  apply (outcome_within_bind (fun _ => True)); [apply vec_get_within|].
  intros first _.
  apply (outcome_within_bind (fun _ => True)).
  - destruct (streq first PAREN_OPEN); [|exact I].
    apply (outcome_within_bind (fun _ => True)); [apply vec_get_within|].
    intros after _. exact I.
  - intros [|] _.
    + apply (rec_within (set_end (set_start p _) _)).
    + apply scan_groups_within. reflexivity.
Qed.

End WithinBody.

Lemma parse_sub_expression_within (fuel : nat) :
  forall p : parser, outcome_within P (curr_line p) (psub fuel p).
Proof.
  induction fuel as [|fuel IH]; intros p; [exact I|].
  simpl. apply parse_sub_expression_body_within. exact IH.
Qed.

End Within.

(** ** The entry point and the matcher *)

(** [match_parens] in closed form. *)
Lemma match_parens_first_token_form (tokens : list string) (s e : Z)
  (matches : list Z) :
  match_parens tokens s e matches =
  if s <? e then
    match token_at tokens s with
    | Some t =>
        Return (negb (streq t PAREN_OPEN) && negb (streq t PAREN_CLOSE), matches)
    | None => undefined (token_read s)
    end
  else Return (true, matches).
Proof.
  destruct (s <? e) eqn:E.
  - destruct (token_at tokens s) as [t|] eqn:Ht.
    + apply match_parens_verdict; [lia|exact Ht].
    + unfold match_parens.
      destruct (Z.to_nat (e - s)) as [|n] eqn:En; [lia|].
      cbn [match_parens_loop]. unfold vec_get. rewrite Ht. reflexivity.
  - unfold match_parens. replace (Z.to_nat (e - s)) with O by lia. reflexivity.
Qed.

(** X12. [match_parens] reads one token at most, the first of the range:
    on a range that is not empty it returns [true] exactly when that token
    is not a parenthesis (and reads outside the vector when the range
    starts outside it); on an empty range it returns [true]. It never
    writes to [matches]. *)
Theorem match_parens_closed_form (tokens : list string) (s e : Z)
  (matches : list Z) :
  match_parens tokens s e matches =
  if s <? e then
    match token_at tokens s with
    | Some t =>
        Return (negb (streq t PAREN_OPEN) && negb (streq t PAREN_CLOSE), matches)
    | None => undefined (token_read s)
    end
  else Return (true, matches).
Proof. apply match_parens_first_token_form. Qed.

Section Entry.

Context {namespace : Type}.
Variable get_literal_type : string -> option type.
Variable var_lookup : @namespace -> string -> ast_node.

Abbreviation parser := (@expression_parser namespace).
Abbreviation psub := (parse_sub_expression get_literal_type var_lookup).
Abbreviation pexpr := (parse_expression get_literal_type var_lookup).

(** X13. The array that [parse_expression] hands to [match_parens] has no
    part in the result: the parser struct is never given it. *)
Theorem parse_expression_ignores_matches (fuel : nat) (stack : parser)
  (matches matches' : list Z) (tokens : list string) (l : line) (s e : Z)
  (names : namespace) :
  pexpr fuel stack matches tokens l s e names =
  pexpr fuel stack matches' tokens l s e names.
Proof.
  unfold parse_expression. rewrite !match_parens_first_token_form.
  destruct (s <? e); [|reflexivity].
  destruct (token_at tokens s); reflexivity.
Qed.

Lemma errors_are_value_or_assignment (fuel : nat) (p : parser) (m : string)
  (l : line) :
  psub fuel p = compiler_error m l ->
  is_value_or_assignment_error m = true /\ l = curr_line p.
Proof.
  intros H.
  pose proof (parse_sub_expression_within get_literal_type var_lookup
                (fun _ => True) I (fun _ _ => I) (fun _ _ => I)
                (fun _ _ => I) (fun _ _ _ _ _ _ _ => I) fuel p) as Hw.
  rewrite H in Hw. exact Hw.
Qed.

(** X9. The only errors [parse_sub_expression] raises are "Invalid Value"
    and "Invalid Assignment", and it raises them with the line of the
    parser it was given. *)
Theorem parse_sub_expression_errors (fuel : nat) (p : parser) (m : string)
  (l : line) :
  psub fuel p = compiler_error m l ->
  (m = "Invalid Value" \/ m = "Invalid Assignment") /\ l = curr_line p.
Proof.
  intros H. destruct (errors_are_value_or_assignment fuel p m l H) as [Hm Hl].
  split; [|exact Hl].
  unfold is_value_or_assignment_error in Hm. apply orb_prop in Hm.
  destruct Hm as [Hm|Hm]; apply String.eqb_eq in Hm; auto.
Qed.

(** X10. If the nodes the namespace holds are typed by their right
    operands, so is every tree [parse_sub_expression] returns: each
    operation node has a right operand that is not [NULL] and carries that
    operand's type. *)
Theorem result_typed_by_right (fuel : nat) (p : parser) (n : ast_node) :
  (forall names tok, typed_by_right (var_lookup names tok) = true) ->
  psub fuel p = Return n -> typed_by_right n = true.
Proof.
  intros Hlookup H.
  assert (Hw : outcome_within (fun n => typed_by_right n = true) (curr_line p)
                 (psub fuel p)).
  { apply parse_sub_expression_within; auto.
    intros t l r g Hl Hr Ht. simpl.
    rewrite (expr_type_has_type r t Ht), Hl, Hr. reflexivity. }
  rewrite H in Hw. exact Hw.
Qed.

(** X11. On a range that is not empty, [parse_expression] raises
    "Mismatched Parentheses" exactly when the first token of the range is
    a parenthesis. *)
Theorem mismatched_parentheses_iff (fuel : nat) (stack : parser)
  (matches : list Z) (tokens : list string) (l : line) (s e : Z)
  (names : namespace) (t : string) :
  s < e -> token_at tokens s = Some t ->
  pexpr fuel stack matches tokens l s e names =
    compiler_error "Mismatched Parentheses" l <->
  streq t PAREN_OPEN || streq t PAREN_CLOSE = true.
Proof.
  intros Hlt Ht.
  rewrite (parse_expression_first_token get_literal_type var_lookup fuel stack
             matches tokens l s e names t Hlt Ht).
  destruct (streq t PAREN_OPEN); destruct (streq t PAREN_CLOSE); simpl;
    try (split; reflexivity).
  split; [|discriminate].
  intros H. apply errors_are_value_or_assignment in H.
  destruct H as [H _]. discriminate.
Qed.

(** X14. Every error [parse_expression] raises carries the line it was
    given, and its message is one of "Mismatched Parentheses", "Invalid
    Value" and "Invalid Assignment". *)
Theorem parse_expression_errors (fuel : nat) (stack : parser)
  (matches : list Z) (tokens : list string) (l : line) (s e : Z)
  (names : namespace) (m : string) (l' : line) :
  pexpr fuel stack matches tokens l s e names = compiler_error m l' ->
  (m = "Mismatched Parentheses" \/ m = "Invalid Value" \/
   m = "Invalid Assignment") /\ l' = l.
Proof.
  unfold parse_expression, raise_compiler_error.
  destruct (e <=? s); [discriminate|].
  rewrite match_parens_first_token_form.
  assert (Hsub : psub fuel (init_expression_parser stack tokens l s e names) =
                 compiler_error m l' ->
                 (m = "Mismatched Parentheses" \/ m = "Invalid Value" \/
                  m = "Invalid Assignment") /\ l' = l).
  { intros H. apply errors_are_value_or_assignment in H.
    destruct H as [Hm Hl]. split; [|exact Hl].
    unfold is_value_or_assignment_error in Hm. apply orb_prop in Hm.
    destruct Hm as [Hm|Hm]; apply String.eqb_eq in Hm; auto. }
  destruct (s <? e); [destruct (token_at tokens s) as [t|]|]; simpl;
    try discriminate; try exact Hsub.
  destruct (negb (streq t PAREN_OPEN) && negb (streq t PAREN_CLOSE)); simpl;
    [exact Hsub|].
  intros H. injection H as <- <-. auto.
Qed.

(** X15. At a tier index inside the operator table, that is under the
    guard of the loop that calls it, [compile_operator] returns [NULL]
    exactly when the token is not an operator of the current tier: a parser
    of the table never returns [NULL]. *)
Theorem compile_operator_null_iff (rec : parser -> outcome ast_node)
  (p : parser) :
  0 <= op_group_index p < COMMON_PRECEDENCE_GROUPS ->
  compile_operator var_lookup rec p = Return NULL <->
  tier_operator (op_group_index p) (token p) = None.
Proof.
  intros _. rewrite compile_operator_tier.
  destruct (tier_operator (op_group_index p) (token p)) as [f|].
  - split; [|discriminate]. intros H.
    apply call_parse_func_not_null in H. discriminate.
  - split; reflexivity.
Qed.

(** X16. On a range of one token [parse_expression] raises "Mismatched
    Parentheses" for a parenthesis and resolves any other token as a
    value. *)
Theorem parse_expression_single_token (fuel : nat) (stack : parser)
  (matches : list Z) (tokens : list string) (l : line) (s : Z)
  (names : namespace) (t : string) :
  s + 1 < SizeT.modulus -> token_at tokens s = Some t ->
  pexpr (S fuel) stack matches tokens l s (s + 1) names =
  if streq t PAREN_OPEN || streq t PAREN_CLOSE then
    compiler_error "Mismatched Parentheses" l
  else resolve_token get_literal_type var_lookup names l t.
Proof.
  intros Hs Ht. pose proof (token_at_bounds _ _ _ Ht) as Hb.
  rewrite (parse_expression_first_token get_literal_type var_lookup (S fuel)
             stack matches tokens l s (s + 1) names t) by (lia || assumption).
  destruct (streq t PAREN_OPEN); destruct (streq t PAREN_CLOSE); simpl negb;
    simpl andb; simpl orb; cbv iota; try reflexivity.
  apply (parse_sub_expression_single get_literal_type var_lookup fuel
           (init_expression_parser stack tokens l s (s + 1) names) t).
  - simpl. apply add_one. lia.
  - exact Ht.
Qed.

Lemma scan_groups_empty (rec : parser -> outcome ast_node) (rounds : nat) :
  forall (steps : nat) (p : parser),
  end_ p <= start p -> 1 <= end_ p < SizeT.modulus ->
  0 <= op_group_index p ->
  (Z.to_nat (COMMON_PRECEDENCE_GROUPS - op_group_index p) <= rounds)%nat ->
  scan_groups var_lookup rec steps rounds p = Return NULL.
Proof.
  induction rounds as [|rounds IH]; intros steps p Hle He Hg Hr;
    rewrite scan_groups_eq;
    destruct (op_group_index p <? COMMON_PRECEDENCE_GROUPS) eqn:E;
    try reflexivity.
  - unfold COMMON_PRECEDENCE_GROUPS in *. lia.
  - cbv zeta. rewrite scan_tokens_eq. simpl start. simpl token_index.
    rewrite sub_one by lia.
    destruct (start p <=? end_ p - 1) eqn:E2; [lia|]. cbn [bind].
    assert (Hadd : SizeT.add (op_group_index p) 1 = op_group_index p + 1).
    { apply add_one. unfold SizeT.modulus, COMMON_PRECEDENCE_GROUPS in *. lia. }
    apply IH.
    + simpl. lia.
    + simpl. lia.
    + change (0 <= SizeT.add (op_group_index p) 1). lia.
    + change (Z.to_nat (COMMON_PRECEDENCE_GROUPS -
                        SizeT.add (op_group_index p) 1) <= rounds)%nat.
      unfold COMMON_PRECEDENCE_GROUPS in *. lia.
Qed.

(** X17. On an empty range after index 0 on which the strip test fails,
    such as the left operand of an operator that is the first token of its
    range, [parse_sub_expression] reads the token at index [start], finds
    nothing to scan in any tier and returns [NULL], without an error. *)
Theorem parse_sub_expression_empty_range (fuel : nat) (p : parser) :
  end_ p = start p -> 1 <= start p -> vec_len (tokenv p) < SizeT.modulus ->
  0 <= op_group_index p ->
  strip_test_fails (tokenv p) (start p) (end_ p) = true ->
  psub (S fuel) p = Return NULL.
Proof.
  intros Hes Hs Hlen Hg Hfail.
  assert (Hlt : start p < vec_len (tokenv p)).
  { unfold strip_test_fails in Hfail.
    destruct (token_at (tokenv p) (start p)) as [t|] eqn:Ht; [|discriminate].
    apply token_at_bounds in Ht. lia. }
  simpl parse_sub_expression.
  rewrite body_scans.
  - apply scan_groups_empty; lia.
  - rewrite add_one by lia. lia.
  - exact Hfail.
Qed.

End Entry.

(** ** The tiers of a tree

    The operand parsers of a split are copies of the parser at the split
    and keep its [op_group_index]; only [init_expression_parser] sets the
    index to 0. A parser at tier [g] therefore never builds an operation
    node of a tier below [g], and no operand of an operation node is an
    operation node of a lower tier. *)

Lemma returns_only_bind {A B : Type} (P : A -> Prop) (Q : B -> Prop)
  (c : outcome A) (k : A -> outcome B) :
  returns_only P c -> (forall a, P a -> returns_only Q (k a)) ->
  returns_only Q (x <- c ;; k x).
Proof. destruct c; simpl; auto. Qed.

Lemma returns_only_any {A : Type} (c : outcome A) :
  returns_only (fun _ => True) c.
Proof. destruct c; exact I. Qed.

Lemma generator_tier_nonneg (gen : assembly_generator) :
  0 <= generator_tier gen.
Proof. destruct gen; simpl; lia. Qed.

Lemma root_tier_at_least_0 (n : ast_node) : root_tier_at_least 0 n = true.
Proof.
  destruct n as [| | |t l r gen]; try reflexivity.
  simpl. apply Z.leb_le. apply generator_tier_nonneg.
Qed.

Lemma root_tier_at_least_mono (g g' : Z) (n : ast_node) :
  g' <= g -> root_tier_at_least g n = true -> root_tier_at_least g' n = true.
Proof.
  destruct n as [| | |t l r gen]; try reflexivity.
  simpl. intros Hle H. apply Z.leb_le in H. apply Z.leb_le. lia.
Qed.

Lemma tiers_from_mono (g g' : Z) (n : ast_node) :
  g' <= g -> tiers_from g n -> tiers_from g' n.
Proof.
  intros Hle [H1 H2]. split; [|exact H2].
  exact (root_tier_at_least_mono g g' n Hle H1).
Qed.

(** The handler a parser of the table passes on belongs to the row the
    parser is found in. *)
Lemma tier_operator_tier (g : Z) (t : string) (f : parser_name) :
  tier_operator g t = Some f ->
  match binary_generator f with
  | Some gen => generator_tier gen = g
  | None => g <= 0
  end.
Proof.
  unfold tier_operator, operator_group.
  destruct (Z.to_nat g) as [|[|[|k]]] eqn:E; unfold operators; cbn [nth find].
  - cbn [operator_token]. destruct (streq t "="); simpl; [|discriminate].
    intros H. injection H as <-. simpl. lia.
  - cbn [operator_token].
    destruct (streq t "+"); simpl; [intros H; injection H as <-; simpl; lia|].
    destruct (streq t "-"); simpl; [intros H; injection H as <-; simpl; lia|].
    discriminate.
  - cbn [operator_token].
    destruct (streq t "*"); simpl; [intros H; injection H as <-; simpl; lia|].
    destruct (streq t "/"); simpl; [intros H; injection H as <-; simpl; lia|].
    destruct (streq t "%"); simpl; [intros H; injection H as <-; simpl; lia|].
    discriminate.
  - destruct k; simpl; discriminate.
Qed.

Lemma next_tier_above (g : Z) :
  g < COMMON_PRECEDENCE_GROUPS -> g <= SizeT.add g 1.
Proof.
  unfold COMMON_PRECEDENCE_GROUPS. intros Hg.
  destruct (Z_lt_le_dec g 0) as [Hneg|Hpos].
  - unfold SizeT.add, SizeT.wrap.
    pose proof (Z.mod_pos_bound (g + 1) SizeT.modulus eq_refl). lia.
  - rewrite add_one; [lia|]. unfold SizeT.modulus. lia.
Qed.

Section Tiers.

Context {namespace : Type}.
Variable get_literal_type : string -> option type.
Variable var_lookup : @namespace -> string -> ast_node.

Abbreviation parser := (@expression_parser namespace).
Abbreviation psub := (parse_sub_expression get_literal_type var_lookup).
Abbreviation pexpr := (parse_expression get_literal_type var_lookup).

Section TiersBody.

Variable rec : parser -> outcome ast_node.
Hypothesis rec_tiers :
  forall q, returns_only (tiers_from (op_group_index q)) (rec q).

Lemma binary_operation_parser_tiers (p : parser) (gen : assembly_generator) :
  generator_tier gen = op_group_index p ->
  returns_only (tiers_from (op_group_index p))
    (binary_operation_parser rec p gen).
Proof.
  intros Hgen. unfold binary_operation_parser.
  apply (returns_only_bind (tiers_from (op_group_index p)));
    [apply (rec_tiers (set_end p _))|].
  intros left [Hleft _].
  apply (returns_only_bind (tiers_from (op_group_index p)));
    [apply (rec_tiers (set_start p _))|].
  intros right [Hright _].
  apply (returns_only_bind (fun _ => True)); [apply returns_only_any|].
  intros t _. simpl. split; simpl.
  - rewrite Hgen. apply Z.leb_refl.
  - rewrite Hgen, Hleft, Hright. reflexivity.
Qed.

Lemma assignment_parser_tiers (p : parser) :
  op_group_index p <= 0 ->
  returns_only (tiers_from (op_group_index p))
    (assignment_parser var_lookup rec p).
Proof.
  intros Hg. unfold assignment_parser, raise_compiler_error.
  destruct (negb _); [exact I|].
  apply (returns_only_bind (fun _ => True)); [apply returns_only_any|].
  intros tok _.
  apply (returns_only_bind (fun _ => True)); [apply returns_only_any|].
  intros value _.
  apply (returns_only_bind (fun _ => True)); [apply returns_only_any|].
  intros t _. simpl. split; simpl.
  - apply Z.leb_le. exact Hg.
  - rewrite !root_tier_at_least_0. reflexivity.
Qed.

Lemma compile_operator_tiers (p : parser) :
  returns_only (tiers_from (op_group_index p))
    (compile_operator var_lookup rec p).
Proof.
  rewrite compile_operator_tier.
  destruct (tier_operator (op_group_index p) (token p)) as [f|] eqn:Ef;
    [|split; reflexivity].
  apply tier_operator_tier in Ef.
  destruct f; simpl in Ef; simpl; unfold mul_parser, div_parser, mod_parser,
    add_parser, sub_parser;
    auto using binary_operation_parser_tiers, assignment_parser_tiers.
Qed.

Lemma scan_tokens_tiers (steps : nat) :
  forall (p : parser) (g : Z), op_group_index p = g ->
  returns_only
    (fun r => match r with
              | returned n => tiers_from g n
              | fell_through q => op_group_index q = g
              end)
    (scan_tokens var_lookup rec steps p).
Proof.
  induction steps as [|steps IH]; intros p g Hg; rewrite scan_tokens_eq;
    destruct (start p <=? token_index p); try (simpl; auto; fail).
  apply (returns_only_bind (fun _ => True)); [apply returns_only_any|].
  intros tok _. cbv zeta.
  destruct (streq _ _).
  - apply (returns_only_bind (fun _ => True)); [apply returns_only_any|].
    intros m _. apply IH. exact Hg.
  - apply (returns_only_bind (tiers_from g)).
    + rewrite <- Hg. apply (compile_operator_tiers (set_token p tok)).
    + intros n Hn. destruct (negb (is_null n)); [exact Hn|].
      apply IH. exact Hg.
Qed.

Lemma scan_groups_tiers (rounds : nat) :
  forall (steps : nat) (p : parser),
  returns_only (tiers_from (op_group_index p))
    (scan_groups var_lookup rec steps rounds p).
Proof.
  induction rounds as [|rounds IH]; intros steps p; rewrite scan_groups_eq;
    destruct (op_group_index p <? COMMON_PRECEDENCE_GROUPS) eqn:E;
    try (simpl; auto; fail); try (split; reflexivity).
  cbv zeta.
  eapply returns_only_bind;
    [apply (scan_tokens_tiers steps (set_token_index p _) (op_group_index p)
              eq_refl)|].
  intros [n|q] Hr; [exact Hr|].
  apply Z.ltb_lt in E.
  pose proof (IH steps
                (set_op_group_index q (SizeT.add (op_group_index q) 1))) as Hq.
  destruct (scan_groups var_lookup rec steps rounds
              (set_op_group_index q (SizeT.add (op_group_index q) 1)));
    try exact I.
  simpl in Hq |- *. rewrite Hr in Hq.
  apply (tiers_from_mono (SizeT.add (op_group_index p) 1)); [|exact Hq].
  apply next_tier_above. exact E.
Qed.

Lemma parse_value_tiers (p : parser) :
  returns_only (tiers_from (op_group_index p))
    (parse_value get_literal_type var_lookup p).
Proof.
  unfold parse_value, raise_compiler_error.
  apply (returns_only_bind (fun _ => True)); [apply returns_only_any|].
  intros tok _. destruct (get_literal_type tok); [split; reflexivity|].
  destruct (var_lookup (ns p) tok); simpl; try exact I; split; reflexivity.
Qed.

Lemma parse_sub_expression_body_tiers (steps : nat) (p : parser) :
  returns_only (tiers_from (op_group_index p))
    (parse_sub_expression_body get_literal_type var_lookup rec steps p).
Proof.
  unfold parse_sub_expression_body.
  destruct (SizeT.add (start p) 1 =? end_ p); [apply parse_value_tiers|].
  apply (returns_only_bind (fun _ => True)); [apply returns_only_any|].
  intros first _.
  apply (returns_only_bind (fun _ => True)); [apply returns_only_any|].
  intros [|] _.
  - apply (rec_tiers (set_end (set_start p _) _)).
  - apply scan_groups_tiers.
Qed.

End TiersBody.

Lemma parse_sub_expression_tiers (fuel : nat) :
  forall p : parser, returns_only (tiers_from (op_group_index p)) (psub fuel p).
Proof.
  induction fuel as [|fuel IH]; intros p; [exact I|].
  simpl. apply parse_sub_expression_body_tiers. exact IH.
Qed.

(** Whatever [parse_expression] is given, and whatever its struct and its
    array hold before they are written: no operand of the root of the tree
    it returns is an operation node of a lower tier than the root. *)
Lemma operand_tier_at_least_root (fuel : nat) (stack : parser)
  (matches : list Z) (tokens : list string) (l : line) (s e : Z)
  (names : namespace) (n : ast_node) :
  pexpr fuel stack matches tokens l s e names = Return n ->
  operands_not_below n = true.
Proof.
  unfold parse_expression, raise_compiler_error.
  destruct (e <=? s); [discriminate|].
  destruct (match_parens tokens s e matches) as [[valid table]| | |]; simpl;
    try discriminate.
  destruct valid; simpl; [|discriminate].
  intros H.
  pose proof (parse_sub_expression_tiers fuel
                (init_expression_parser stack tokens l s e names)) as Ht.
  rewrite H in Ht. exact (proj2 Ht).
Qed.

End Tiers.


(** ** Three operands anywhere after index 0 *)

Ltac comparisons :=
  repeat match goal with
         | H : (_ <=? _) = true |- _ => apply Z.leb_le in H
         | H : (_ <=? _) = false |- _ => apply Z.leb_gt in H
         | H : (_ <? _) = true |- _ => apply Z.ltb_lt in H
         | H : (_ <? _) = false |- _ => apply Z.ltb_ge in H
         end.

Lemma vec_len_app {A : Type} (l1 l2 : list A) :
  vec_len (l1 ++ l2) = vec_len l1 + vec_len l2.
Proof. unfold vec_len. rewrite length_app. lia. Qed.

Lemma token_at_window (pre mid post : list string) (k x : Z) (t : string) :
  x = vec_len pre + k -> 0 <= k ->
  nth_error mid (Z.to_nat k) = Some t ->
  token_at (pre ++ mid ++ post) x = Some t.
Proof.
  intros -> Hk Hnth.
  assert (Hlt : (Z.to_nat k < List.length mid)%nat)
    by (apply nth_error_Some; congruence).
  unfold token_at. rewrite !vec_len_app. unfold vec_len in *.
  destruct (0 <=? Z.of_nat (List.length pre) + k) eqn:E1; [|exfalso; comparisons; lia].
  destruct (Z.of_nat (List.length pre) + k <?
            Z.of_nat (List.length pre) +
            (Z.of_nat (List.length mid) + Z.of_nat (List.length post))) eqn:E2;
    [|exfalso; comparisons; lia].
  simpl andb. cbv iota.
  replace (Z.to_nat (Z.of_nat (List.length pre) + k))
    with (List.length pre + Z.to_nat k)%nat by lia.
  rewrite nth_error_app2 by lia.
  replace (List.length pre + Z.to_nat k - List.length pre)%nat
    with (Z.to_nat k) by lia.
  rewrite nth_error_app1 by lia. exact Hnth.
Qed.

Lemma range_tokens_window (pre mid post : list string) (lo hi x y : Z) :
  x = vec_len pre + lo -> y = vec_len pre + hi ->
  0 <= lo <= hi -> hi <= vec_len mid ->
  range_tokens (pre ++ mid ++ post) x y = range_tokens mid lo hi.
Proof.
  intros -> -> Hlo Hhi. unfold range_tokens, vec_len in *.
  replace (Z.of_nat (List.length pre) + hi - (Z.of_nat (List.length pre) + lo))
    with (hi - lo) by lia.
  replace (Z.to_nat (Z.of_nat (List.length pre) + lo))
    with (List.length pre + Z.to_nat lo)%nat by lia.
  rewrite skipn_app.
  rewrite skipn_all2 by lia.
  replace (List.length pre + Z.to_nat lo - List.length pre)%nat
    with (Z.to_nat lo) by lia.
  cbn [app]. rewrite skipn_app.
  replace (Z.to_nat lo - List.length mid)%nat with O by lia.
  cbn [skipn]. rewrite firstn_app. rewrite length_skipn.
  replace (Z.to_nat (hi - lo) - (List.length mid - Z.to_nat lo))%nat
    with O by lia.
  cbn [firstn]. apply app_nil_r.
Qed.

Lemma window_in_tokens (pre mid post : list string) (lo hi x y : Z) :
  x = vec_len pre + lo -> y = vec_len pre + hi ->
  0 <= lo <= hi -> hi <= vec_len mid ->
  vec_len (pre ++ mid ++ post) < SizeT.modulus ->
  in_tokens (pre ++ mid ++ post) x y = true.
Proof.
  intros -> -> Hlo Hhi Hlen.
  unfold in_tokens. rewrite !vec_len_app in *.
  assert (0 <= vec_len post) by (unfold vec_len; lia).
  assert (0 <= vec_len pre) by (unfold vec_len; lia).
  repeat (apply andb_true_intro; split);
    first [apply Z.leb_le | apply Z.ltb_lt]; lia.
Qed.

Lemma window_no_split (pre mid post : list string) (g lo hi x y : Z) :
  x = vec_len pre + lo -> y = vec_len pre + hi ->
  0 <= lo <= hi -> hi <= vec_len mid ->
  forallb (scan_passes g) (range_tokens mid lo hi) = true ->
  no_split g (pre ++ mid ++ post) x y = true.
Proof.
  intros Hx Hy Hlo Hhi H. unfold no_split.
  rewrite (range_tokens_window pre mid post lo hi x y); auto.
Qed.

Lemma window_tiers_exhausted (pre mid post : list string) (n : nat) :
  forall (g0 g lo hi x y : Z),
  Z.to_nat (g - g0) = n -> 0 <= g0 ->
  x = vec_len pre + lo -> y = vec_len pre + hi ->
  0 <= lo <= hi -> hi <= vec_len mid ->
  (forall t, g0 <= t < g ->
     forallb (scan_passes t) (range_tokens mid lo hi) = true) ->
  tiers_exhausted g0 g (pre ++ mid ++ post) x y = true.
Proof.
  induction n as [|n IH]; intros g0 g lo hi x y Hn Hg0 Hx Hy Hlo Hhi Hall.
  - unfold tiers_exhausted. rewrite Hn. reflexivity.
  - rewrite tiers_exhausted_step by lia.
    rewrite (window_no_split pre mid post g0 lo hi x y) by (auto; apply Hall; lia).
    apply (IH (g0 + 1) g lo hi x y); auto; try lia.
    intros t Ht. apply Hall. lia.
Qed.

(** The five operators that go through [binary_operation_parser], with
    their tiers. *)
Lemma binary_operator_cases (g : Z) (op : string) (f : parser_name)
  (gen : assembly_generator) :
  1 <= g <= 2 -> tier_operator g op = Some f -> binary_generator f = Some gen ->
  (g = 1 /\ op = ADD /\ f = add_parser_ptr /\ gen = add_assembly) \/
  (g = 1 /\ op = SUB /\ f = sub_parser_ptr /\ gen = sub_assembly) \/
  (g = 2 /\ op = MUL /\ f = mul_parser_ptr /\ gen = mul_assembly) \/
  (g = 2 /\ op = DIV /\ f = div_parser_ptr /\ gen = div_assembly) \/
  (g = 2 /\ op = MOD /\ f = mod_parser_ptr /\ gen = mod_assembly).
Proof.
  intros Hg Hop Hgen.
  assert (Hcases : g = 1 \/ g = 2) by lia.
  unfold tier_operator, operator_group, streq in Hop.
  destruct Hcases as [-> | ->];
    [change (Z.to_nat 1) with 1%nat in Hop
    |change (Z.to_nat 2) with 2%nat in Hop];
    simpl in Hop.
  - destruct (String.eqb op "+") eqn:E1.
    + apply String.eqb_eq in E1. injection Hop as <-. simpl in Hgen.
      injection Hgen as <-. auto.
    + destruct (String.eqb op "-") eqn:E2; [|discriminate].
      apply String.eqb_eq in E2. injection Hop as <-. simpl in Hgen.
      injection Hgen as <-. auto 10.
  - destruct (String.eqb op "*") eqn:E1.
    + apply String.eqb_eq in E1. injection Hop as <-. simpl in Hgen.
      injection Hgen as <-. auto 10.
    + destruct (String.eqb op "/") eqn:E2.
      * apply String.eqb_eq in E2. injection Hop as <-. simpl in Hgen.
        injection Hgen as <-. auto 10.
      * destruct (String.eqb op "%") eqn:E3; [|discriminate].
        apply String.eqb_eq in E3. injection Hop as <-. simpl in Hgen.
        injection Hgen as <-. auto 10.
Qed.

Section Chains.

Context {namespace : Type}.
Variable get_literal_type : string -> option type.
Variable var_lookup : @namespace -> string -> ast_node.
Variables (pre post : list string) (a b c : string).
Variables (stack : @expression_parser namespace) (matches : list Z).
Variables (l : line) (names : namespace).

Abbreviation pexpr := (parse_expression get_literal_type var_lookup).
Abbreviation value := (resolve_token get_literal_type var_lookup names l).

Hypothesis a_operand : is_operand a = true.
Hypothesis b_operand : is_operand b = true.
Hypothesis c_operand : is_operand c = true.
Hypothesis after_index_0 : 1 <= vec_len pre.

Ltac operands_pass :=
  rewrite ?(operand_passes _ a a_operand), ?(operand_passes _ b b_operand),
    ?(operand_passes _ c c_operand);
  reflexivity.

Ltac offsets tac :=
  first [tac constr:(0%Z) | tac constr:(1%Z) | tac constr:(2%Z)
        | tac constr:(3%Z) | tac constr:(4%Z) | tac constr:(5%Z)].

Ltac passes_in_tiers :=
  let t := fresh "t" in
  let Ht := fresh "Ht" in
  intros t Ht;
  assert (t = 0 \/ t = 1 \/ t = 2) as [-> | [-> | ->]] by lia;
  first [exfalso; lia | cbv -[scan_passes]; operands_pass].

Ltac chain_condition :=
  cbn [tokenv start end_ op_group_index curr_line ns expr_start token
       token_index paren_matches init_expression_parser set_end set_start
       set_token set_token_index set_op_group_index at_index];
  lazymatch goal with
  | |- in_tokens _ _ _ = true =>
      offsets ltac:(fun lo => offsets ltac:(fun hi =>
        solve [apply (window_in_tokens pre _ post lo hi);
               [lia|lia|lia|cbn; lia|assumption]]))
  | |- no_split ?g _ _ _ = true =>
      offsets ltac:(fun lo => offsets ltac:(fun hi =>
        solve [apply (window_no_split pre _ post g lo hi);
               [lia|lia|lia|cbn; lia|cbv -[scan_passes]; operands_pass]]))
  | |- tiers_exhausted ?g0 ?g _ _ _ = true =>
      offsets ltac:(fun lo => offsets ltac:(fun hi =>
        solve [apply (window_tiers_exhausted pre _ post (Z.to_nat (g - g0))
                        g0 g lo hi);
               [reflexivity|lia|lia|lia|lia|cbn; lia|passes_in_tiers]]))
  | |- token_at _ _ = Some _ =>
      offsets ltac:(fun k =>
        solve [apply (token_at_window pre _ post k); [lia|lia|reflexivity]])
  | |- strip_test_fails _ _ _ = true =>
      unfold strip_test_fails;
      offsets ltac:(fun k =>
        solve [erewrite (token_at_window pre _ post k); cycle 1;
               [lia|lia|reflexivity
               |rewrite ?(operand_not_open a a_operand),
                  ?(operand_not_open b b_operand),
                  ?(operand_not_open c c_operand); reflexivity]])
  | |- SizeT.add _ _ <> _ => rewrite add_one by lia; lia
  | |- SizeT.add _ _ = _ => rewrite add_one by lia; lia
  | |- _ = _ => reflexivity
  | |- _ => unfold COMMON_PRECEDENCE_GROUPS; lia
  end.

Ltac split_operators Hg1 Hop1 Hgen1 Hg2 Hop2 Hgen2 :=
  let H1 := fresh "H" in
  let H2 := fresh "H" in
  destruct (binary_operator_cases _ _ _ _ Hg1 Hop1 Hgen1)
    as [H1|[H1|[H1|[H1|H1]]]];
  destruct H1 as (-> & -> & -> & ->);
  destruct (binary_operator_cases _ _ _ _ Hg2 Hop2 Hgen2)
    as [H2|[H2|[H2|[H2|H2]]]];
  destruct H2 as (-> & -> & -> & ->);
  try (exfalso; lia);
  unfold ADD, SUB, MUL, DIV, MOD in *.

(** X18. [a op1 b op2 c], anywhere after index 0, for operand tokens
    [a], [b], [c] and operators other than [=]: when the tier of [op2] is
    not above the tier of [op1], [op2] is the root and [a op1 b] its left
    operand. Operators of one tier thus associate to the left. *)
Theorem rightmost_lowest_operator_is_root (op1 op2 : string) (g1 g2 : Z)
  (f1 f2 : parser_name) (gen1 gen2 : assembly_generator) (fuel : nat) :
  1 <= g1 <= 2 -> tier_operator g1 op1 = Some f1 ->
  binary_generator f1 = Some gen1 ->
  1 <= g2 <= 2 -> tier_operator g2 op2 = Some f2 ->
  binary_generator f2 = Some gen2 ->
  g2 <= g1 ->
  vec_len (pre ++ [a; op1; b; op2; c] ++ post) < SizeT.modulus ->
  (6 <= fuel)%nat ->
  pexpr fuel stack matches (pre ++ [a; op1; b; op2; c] ++ post) l
    (vec_len pre) (vec_len pre + 5) names =
  (left <- (la <- value a ;;
            lb <- value b ;;
            t <- expr_type_of lb ;;
            Return (binary_operation t la lb gen1)) ;;
   right <- value c ;;
   t <- expr_type_of right ;;
   Return (binary_operation t left right gen2)).
Proof.
  intros Hg1 Hop1 Hgen1 Hg2 Hop2 Hgen2 Hle Hlen Hfuel.
  assert (Hpost : 0 <= vec_len post) by (unfold vec_len; lia).
  assert (Hbound : vec_len pre + 5 < SizeT.modulus).
  { rewrite !vec_len_app in Hlen.
    change (vec_len [a; op1; b; op2; c]) with 5 in Hlen. lia. }
  destruct fuel as [|[|[|fuel]]]; try lia.
  rewrite (parse_expression_first_token get_literal_type var_lookup _ stack
             matches _ l _ _ names a) by chain_condition.
  destruct (operand_not_special a a_operand) as (-> & -> & _).
  cbn [negb andb].
  rewrite (parse_sub_expression_binary get_literal_type var_lookup _ _ g2
             (vec_len pre + 3) op2 f2 gen2)
    by (try assumption;
        split_operators Hg1 Hop1 Hgen1 Hg2 Hop2 Hgen2; chain_condition).
  rewrite (parse_sub_expression_binary get_literal_type var_lookup _ _ g1
             (vec_len pre + 1) op1 f1 gen1)
    by (try assumption;
        split_operators Hg1 Hop1 Hgen1 Hg2 Hop2 Hgen2; chain_condition).
  rewrite (parse_sub_expression_single _ _ _ _ a) by chain_condition.
  rewrite (parse_sub_expression_single _ _ _ _ b) by chain_condition.
  rewrite (parse_sub_expression_single _ _ _ _ c) by chain_condition.
  reflexivity.
Qed.

(** X19. The same statement when the tier of [op2] is above the tier of
    [op1]: [op1] is the root and [b op2 c] its right operand. *)
Theorem higher_tier_binds_tighter (op1 op2 : string) (g1 g2 : Z)
  (f1 f2 : parser_name) (gen1 gen2 : assembly_generator) (fuel : nat) :
  1 <= g1 <= 2 -> tier_operator g1 op1 = Some f1 ->
  binary_generator f1 = Some gen1 ->
  1 <= g2 <= 2 -> tier_operator g2 op2 = Some f2 ->
  binary_generator f2 = Some gen2 ->
  g1 < g2 ->
  vec_len (pre ++ [a; op1; b; op2; c] ++ post) < SizeT.modulus ->
  (6 <= fuel)%nat ->
  pexpr fuel stack matches (pre ++ [a; op1; b; op2; c] ++ post) l
    (vec_len pre) (vec_len pre + 5) names =
  (left <- value a ;;
   right <- (lb <- value b ;;
             lc <- value c ;;
             t <- expr_type_of lc ;;
             Return (binary_operation t lb lc gen2)) ;;
   t <- expr_type_of right ;;
   Return (binary_operation t left right gen1)).
Proof.
  intros Hg1 Hop1 Hgen1 Hg2 Hop2 Hgen2 Hlt Hlen Hfuel.
  assert (Hpost : 0 <= vec_len post) by (unfold vec_len; lia).
  assert (Hbound : vec_len pre + 5 < SizeT.modulus).
  { rewrite !vec_len_app in Hlen.
    change (vec_len [a; op1; b; op2; c]) with 5 in Hlen. lia. }
  destruct fuel as [|[|[|fuel]]]; try lia.
  rewrite (parse_expression_first_token get_literal_type var_lookup _ stack
             matches _ l _ _ names a) by chain_condition.
  destruct (operand_not_special a a_operand) as (-> & -> & _).
  cbn [negb andb].
  rewrite (parse_sub_expression_binary get_literal_type var_lookup _ _ g1
             (vec_len pre + 1) op1 f1 gen1)
    by (try assumption;
        split_operators Hg1 Hop1 Hgen1 Hg2 Hop2 Hgen2; chain_condition).
  rewrite (parse_sub_expression_single _ _ _ _ a) by chain_condition.
  rewrite (parse_sub_expression_binary get_literal_type var_lookup _ _ g2
             (vec_len pre + 3) op2 f2 gen2)
    by (try assumption;
        split_operators Hg1 Hop1 Hgen1 Hg2 Hop2 Hgen2; chain_condition).
  rewrite (parse_sub_expression_single _ _ _ _ b) by chain_condition.
  rewrite (parse_sub_expression_single _ _ _ _ c) by chain_condition.
  reflexivity.
Qed.

End Chains.

(** * The properties at concrete inputs *)

Lemma valid_file_names_witness :
  1 <= 5 /\ SourceCodeFiles.strlen ".src" = 5 - 1 /\
  (SourceCodeFiles.invalid_file_name 5 ".src" "a.src" = false <->
   exists stem : string,
     stem <> EmptyString /\ "a.src" = (stem ++ ".src")%string).
Proof.
  assert (H1 : 1 <= 5) by lia.
  split; [exact H1|]. split; [reflexivity|].
  exact (SourceCodeFilesFacts.valid_file_names 5 ".src" "a.src" H1 eq_refl).
Defined.

Lemma extension_length_mismatch_witness :
  1 <= 5 /\ SourceCodeFiles.strlen ".c" <> 5 - 1 /\
  SourceCodeFiles.invalid_file_name 5 ".c" "main.c" = true.
Proof.
  assert (H1 : 1 <= 5) by lia.
  assert (H2 : SourceCodeFiles.strlen ".c" <> 5 - 1)
    by (vm_compute; discriminate).
  split; [exact H1|]. split; [exact H2|].
  exact (SourceCodeFilesFacts.extension_length_mismatch 5 ".c" "main.c" H1 H2).
Defined.

Lemma stops_at_first_failure_witness :
  SourceCodeFiles.result (SourceCodeFiles.Sample.read_one "missing.src") = None /\
  SourceCodeFiles.Sample.read_all ["a.src"; "missing.src"; "b.src"] =
  SourceCodeFiles.Sample.read_all ["a.src"; "missing.src"] /\
  SourceCodeFiles.result
    (SourceCodeFiles.Sample.read_all ["a.src"; "missing.src"; "b.src"]) = None.
Proof.
  split; [reflexivity|].
  exact (SourceCodeFilesFacts.stops_at_first_failure
           SourceCodeFiles.Sample.MIN_FILENAME_LEN
           SourceCodeFiles.Sample.FILE_EXT SourceCodeFiles.Sample.fopen
           SourceCodeFiles.Sample.malloc_succeeds
           ["a.src"] "missing.src" ["b.src"] eq_refl).
Defined.

Lemma parse_sub_expression_errors_witness :
  Demo.parse_sub 1 (Demo.parser_with_table [] ["zz"] 0 1) =
  compiler_error "Invalid Value" 7 /\
  ("Invalid Value" = "Invalid Value" \/ "Invalid Value" = "Invalid Assignment") /\
  7 = curr_line (Demo.parser_with_table [] ["zz"] 0 1).
Proof.
  split; [reflexivity|].
  exact (parse_sub_expression_errors Demo.get_literal_type Demo.var_lookup 1
           (Demo.parser_with_table [] ["zz"] 0 1) "Invalid Value" 7 eq_refl).
Defined.

Lemma demo_lookup_typed (names : Demo.namespace) (tok : string) :
  typed_by_right (Demo.var_lookup names tok) = true.
Proof.
  induction names as [|[n ty] names IH]; simpl; [reflexivity|].
  destruct (String.eqb n tok); [reflexivity|exact IH].
Qed.

Lemma result_typed_by_right_witness :
  (forall names tok, typed_by_right (Demo.var_lookup names tok) = true) /\
  Demo.parse_sub 6 (Demo.parser_with_table [] ["x"; "="; "a"; "+"; "b"] 0 5) =
  Return
    (binary_operation Demo.int_type (var_node Demo.int_type "x")
       (binary_operation Demo.int_type (var_node Demo.int_type "a")
          (var_node Demo.int_type "b") add_assembly)
       assignment_assembly) /\
  typed_by_right
    (binary_operation Demo.int_type (var_node Demo.int_type "x")
       (binary_operation Demo.int_type (var_node Demo.int_type "a")
          (var_node Demo.int_type "b") add_assembly)
       assignment_assembly) = true.
Proof.
  split; [exact demo_lookup_typed|]. split; [reflexivity|].
  exact (result_typed_by_right Demo.get_literal_type Demo.var_lookup 6
           (Demo.parser_with_table [] ["x"; "="; "a"; "+"; "b"] 0 5) _
           demo_lookup_typed eq_refl).
Defined.

Lemma mismatched_parentheses_iff_witness :
  0 < 3 /\ token_at ["("; "a"; ")"] 0 = Some "(" /\
  (Demo.parse 2 [] ["("; "a"; ")"] 0 3 =
   compiler_error "Mismatched Parentheses" 7 <->
   streq "(" PAREN_OPEN || streq "(" PAREN_CLOSE = true).
Proof.
  assert (H1 : 0 < 3) by lia.
  split; [exact H1|]. split; [reflexivity|].
  exact (mismatched_parentheses_iff Demo.get_literal_type Demo.var_lookup 2
           Demo.stack_parser [] ["("; "a"; ")"] 7 0 3 Demo.names "(" H1 eq_refl).
Defined.

Lemma parse_expression_errors_witness :
  Demo.parse 6 [] ["x"; "+"; "y"; "="; "a"] 0 5 =
  compiler_error "Invalid Assignment" 7 /\
  ("Invalid Assignment" = "Mismatched Parentheses" \/
   "Invalid Assignment" = "Invalid Value" \/
   "Invalid Assignment" = "Invalid Assignment") /\ 7 = 7.
Proof.
  split; [reflexivity|].
  exact (parse_expression_errors Demo.get_literal_type Demo.var_lookup 6
           Demo.stack_parser [] ["x"; "+"; "y"; "="; "a"] 7 0 5 Demo.names
           "Invalid Assignment" 7 eq_refl).
Defined.

Lemma parse_expression_single_token_witness :
  0 + 1 < SizeT.modulus /\ token_at ["5"] 0 = Some "5" /\
  Demo.parse 1 [] ["5"] 0 (0 + 1) = Return (literal_node Demo.int_type "5").
Proof.
  assert (H1 : 0 + 1 < SizeT.modulus) by reflexivity.
  split; [exact H1|]. split; [reflexivity|].
  exact (parse_expression_single_token Demo.get_literal_type Demo.var_lookup 0
           Demo.stack_parser [] ["5"] 7 0 Demo.names "5" H1 eq_refl).
Defined.

(** The state of the witness is the left operand parser of [- a] on
    [1, 3): the operator is found at index 1 in tier 1, and the left operand
    is the empty range [1, 1). *)
Lemma parse_sub_expression_empty_range_witness :
  let p := set_end (at_index (set_op_group_index
                      (Demo.parser_with_table [] ["q"; "-"; "a"] 1 3) 1) 1 "-") 1 in
  (end_ p = start p /\ 1 <= start p /\ vec_len (tokenv p) < SizeT.modulus /\
   0 <= op_group_index p /\
   strip_test_fails (tokenv p) (start p) (end_ p) = true) /\
  Demo.parse_sub 1 p = Return NULL.
Proof.
  intros p.
  assert (H1 : end_ p = start p) by reflexivity.
  assert (H2 : 1 <= start p) by (vm_compute; discriminate).
  assert (H3 : vec_len (tokenv p) < SizeT.modulus) by reflexivity.
  assert (H4 : 0 <= op_group_index p) by (vm_compute; discriminate).
  assert (H5 : strip_test_fails (tokenv p) (start p) (end_ p) = true)
    by reflexivity.
  split; [repeat split; assumption|].
  exact (parse_sub_expression_empty_range Demo.get_literal_type Demo.var_lookup
           0 p H1 H2 H3 H4 H5).
Defined.

Lemma compile_operator_null_iff_witness :
  let p := at_index (set_op_group_index
             (Demo.parser_with_table [] ["q"; "a"; "*"; "b"] 1 4) 1) 2 "*" in
  0 <= op_group_index p < COMMON_PRECEDENCE_GROUPS /\
  (compile_operator Demo.var_lookup (Demo.parse_sub 0) p = Return NULL <->
   tier_operator (op_group_index p) (token p) = None).
Proof.
  intros p.
  assert (H : 0 <= op_group_index p < COMMON_PRECEDENCE_GROUPS)
    by (split; vm_compute; [discriminate|reflexivity]).
  split; [exact H|].
  exact (compile_operator_null_iff Demo.var_lookup (Demo.parse_sub 0) p H).
Defined.

(** A statement that begins with an operator: the empty left operand is
    [NULL] in the node, and no error is raised. *)
Example leading_operator : forall extra : nat,
  Demo.parse (3 + extra) [] ["q"; "-"; "a"] 1 3 =
  Return (binary_operation Demo.int_type NULL (var_node Demo.int_type "a")
            sub_assembly).
Proof. with_more_fuel. Qed.

Lemma rightmost_lowest_operator_is_root_witness :
  (is_operand "a" = true /\ is_operand "b" = true /\ is_operand "c" = true /\
   1 <= vec_len ["q"] /\ 1 <= 1 <= 2 /\
   tier_operator 1 "-" = Some sub_parser_ptr /\
   binary_generator sub_parser_ptr = Some sub_assembly /\ 1 <= 1 /\
   vec_len (["q"] ++ ["a"; "-"; "b"; "-"; "c"] ++ []) < SizeT.modulus /\
   (6 <= 6)%nat) /\
  Demo.parse 6 [] (["q"] ++ ["a"; "-"; "b"; "-"; "c"] ++ []) (vec_len ["q"])
    (vec_len ["q"] + 5) =
  Return
    (binary_operation Demo.int_type
       (binary_operation Demo.int_type (var_node Demo.int_type "a")
          (var_node Demo.int_type "b") sub_assembly)
       (var_node Demo.int_type "c") sub_assembly).
Proof.
  assert (H1 : 1 <= vec_len ["q"]) by reflexivity.
  assert (H2 : 1 <= 1 <= 2) by lia.
  assert (H3 : 1 <= 1) by lia.
  assert (H4 : vec_len (["q"] ++ ["a"; "-"; "b"; "-"; "c"] ++ []) <
               SizeT.modulus) by reflexivity.
  assert (H5 : (6 <= 6)%nat) by lia.
  split.
  - repeat split; first [reflexivity | assumption | lia].
  - exact (rightmost_lowest_operator_is_root Demo.get_literal_type
             Demo.var_lookup ["q"] [] "a" "b" "c" Demo.stack_parser [] 7
             Demo.names eq_refl eq_refl eq_refl H1 "-" "-" 1 1
             sub_parser_ptr sub_parser_ptr sub_assembly sub_assembly 6
             H2 eq_refl eq_refl H2 eq_refl eq_refl H3 H4 H5).
Defined.

Lemma higher_tier_binds_tighter_witness :
  (is_operand "a" = true /\ is_operand "b" = true /\ is_operand "c" = true /\
   1 <= vec_len ["q"] /\ 1 <= 1 <= 2 /\ 1 <= 2 <= 2 /\
   tier_operator 1 "+" = Some add_parser_ptr /\
   binary_generator add_parser_ptr = Some add_assembly /\
   tier_operator 2 "*" = Some mul_parser_ptr /\
   binary_generator mul_parser_ptr = Some mul_assembly /\ 1 < 2 /\
   vec_len (["q"] ++ ["a"; "+"; "b"; "*"; "c"] ++ [";"]) < SizeT.modulus /\
   (6 <= 6)%nat) /\
  Demo.parse 6 [] (["q"] ++ ["a"; "+"; "b"; "*"; "c"] ++ [";"]) (vec_len ["q"])
    (vec_len ["q"] + 5) =
  Return
    (binary_operation Demo.int_type (var_node Demo.int_type "a")
       (binary_operation Demo.int_type (var_node Demo.int_type "b")
          (var_node Demo.int_type "c") mul_assembly)
       add_assembly).
Proof.
  assert (H1 : 1 <= vec_len ["q"]) by reflexivity.
  assert (H2 : 1 <= 1 <= 2) by lia.
  assert (H3 : 1 <= 2 <= 2) by lia.
  assert (H4 : 1 < 2) by lia.
  assert (H5 : vec_len (["q"] ++ ["a"; "+"; "b"; "*"; "c"] ++ [";"]) <
               SizeT.modulus) by reflexivity.
  assert (H6 : (6 <= 6)%nat) by lia.
  split.
  - repeat split; first [reflexivity | assumption | lia].
  - exact (higher_tier_binds_tighter Demo.get_literal_type Demo.var_lookup
             ["q"] [";"] "a" "b" "c" Demo.stack_parser [] 7 Demo.names
             eq_refl eq_refl eq_refl H1 "+" "*" 1 2
             add_parser_ptr mul_parser_ptr add_assembly mul_assembly 6
             H2 eq_refl eq_refl H3 eq_refl eq_refl H4 H5 H6).
Defined.

Lemma parse_sub_expression_null_witness :
  let p := Demo.parser_with_table [] ["q"; "a"; "b"] 1 3 in
  (0 <= op_group_index p <= COMMON_PRECEDENCE_GROUPS /\
   in_tokens (tokenv p) (start p) (end_ p) = true /\
   SizeT.add (start p) 1 <> end_ p /\
   strip_test_fails (tokenv p) (start p) (end_ p) = true /\
   1 <= start p < end_ p /\
   tiers_exhausted (op_group_index p) COMMON_PRECEDENCE_GROUPS (tokenv p)
     (start p) (end_ p) = true /\
   (Z.to_nat (end_ p - start p) <= 2)%nat) /\
  Demo.parse_sub 3 p = Return NULL.
Proof.
  cbv zeta.
  assert (H1 : 0 <= 0 <= COMMON_PRECEDENCE_GROUPS)
    by (unfold COMMON_PRECEDENCE_GROUPS; lia).
  assert (H2 : SizeT.add 1 1 <> 3) by (vm_compute; discriminate).
  assert (H3 : 1 <= 1 < 3) by lia.
  assert (H4 : (Z.to_nat (3 - 1) <= 2)%nat) by (simpl; lia).
  split.
  - repeat split; first [reflexivity | assumption | solve [simpl; lia] | exact H2].
  - exact (parse_sub_expression_null Demo.get_literal_type Demo.var_lookup 2
             (Demo.parser_with_table [] ["q"; "a"; "b"] 1 3)
             H1 eq_refl H2 eq_refl H3 eq_refl H4).
Defined.

Lemma parse_sub_expression_wraps_witness :
  let p := Demo.parser_with_table [] ["a"; "b"] 0 2 in
  (0 <= op_group_index p < COMMON_PRECEDENCE_GROUPS /\
   in_tokens (tokenv p) (start p) (end_ p) = true /\
   start p = 0 /\ 1 < end_ p /\
   strip_test_fails (tokenv p) (start p) (end_ p) = true /\
   no_split (op_group_index p) (tokenv p) (start p) (end_ p) = true /\
   (Z.to_nat (end_ p) + 1 <= 3)%nat) /\
  Demo.parse_sub 4 p = undefined (token_read SizeT.max).
Proof.
  cbv zeta.
  assert (H1 : 0 <= 0 < COMMON_PRECEDENCE_GROUPS)
    by (unfold COMMON_PRECEDENCE_GROUPS; lia).
  assert (H2 : 1 < 2) by lia.
  assert (H3 : (Z.to_nat 2 + 1 <= 3)%nat) by (simpl; lia).
  split.
  - repeat split; first [reflexivity | assumption | solve [simpl; lia]].
  - exact (parse_sub_expression_wraps Demo.get_literal_type Demo.var_lookup 3
             (Demo.parser_with_table [] ["a"; "b"] 0 2)
             H1 eq_refl eq_refl H2 eq_refl eq_refl H3).
Defined.

(** The paths of [read_source_file] in the sample environment. *)
Example read_unseekable_file :
  SourceCodeFiles.Sample.read_one "pipe.src" =
  (None,
   [SourceCodeFiles.fopen_call "pipe.src";
    SourceCodeFiles.fseek_end_call SourceCodeFiles.Sample.unseekable;
    SourceCodeFiles.fprintf_stderr
      ("Failed to calculate size of file: pipe.src" ++ SourceCodeFiles.newline);
    SourceCodeFiles.fclose_call SourceCodeFiles.Sample.unseekable]).
Proof. reflexivity. Qed.

Example read_short_file :
  SourceCodeFiles.Sample.read_one "short.src" =
  (None,
   [SourceCodeFiles.fopen_call "short.src";
    SourceCodeFiles.fseek_end_call SourceCodeFiles.Sample.short;
    SourceCodeFiles.ftell_call SourceCodeFiles.Sample.short;
    SourceCodeFiles.rewind_call SourceCodeFiles.Sample.short;
    SourceCodeFiles.malloc_call 10;
    SourceCodeFiles.fread_call SourceCodeFiles.Sample.short 9;
    SourceCodeFiles.fclose_call SourceCodeFiles.Sample.short;
    SourceCodeFiles.fprintf_stderr
      ("Failed to read from file: short.src" ++ SourceCodeFiles.newline);
    SourceCodeFiles.free_call "abc"]).
Proof. reflexivity. Qed.

Example read_two_files :
  SourceCodeFiles.result (SourceCodeFiles.Sample.read_all ["a.src"; "b.src"]) =
  Some ["x = 1"; "x = 1"] /\
  SourceCodeFiles.result (SourceCodeFiles.Sample.read_all ["a.src"; "b.c"]) = None /\
  SourceCodeFiles.diagnostics
    (SourceCodeFiles.calls (SourceCodeFiles.Sample.read_all ["a.src"; "b.c"])) =
  [("Invalid file: b.c" ++ SourceCodeFiles.newline)%string].
Proof. repeat split. Qed.
